(** * Security monitoring Lambda (monitoring/lambda/index.js)

    A shallow embedding of the check run of the monitoring Lambda:
    [runSecurityChecks] with its four per-resource checks,
    [processResults] and [sendAlert], over a model of the JavaScript
    values the AWS SDK hands to the code. *)

From Stdlib Require Import String Ascii List ZArith Lia Bool Arith.
From Stdlib Require Import DecimalString.
Import ListNotations.
Local Open Scope list_scope.
Local Open Scope string_scope.

(** ** JavaScript values

    The descriptors and the AWS responses are JSON-like trees.  Numbers are
    the integer-valued ones (what the checks can meet in a descriptor: ports,
    counts); an object is the list of its own properties in enumeration
    order, keys pairwise distinct. *)

#[local] Set Warnings "-register-all".

Inductive JSValue : Type :=
| JUndefined
| JNull
| JBool (b : bool)
| JNum (z : Z)
| JStr (s : string)
| JArr (l : list JSValue)
| JObj (l : list (string * JSValue)).

(** What a rejected promise or a [throw] carries: an [Error] whose
    [message] the catch blocks read. *)
Inductive TypeErrorReason : Type :=
| ReadOfNullish (receiver : JSValue) (prop : string)
| NotAFunction (callee : string)
| NotIterable (prop : string).

Inductive JSError : Type :=
| TypeError (r : TypeErrorReason)
| ServiceError (code msg : string).

Inductive Result (A : Type) : Type :=
| Ok (a : A)
| Throw (e : JSError).
Arguments Ok {A} a.
Arguments Throw {A} e.

Module JS.

(** ToBoolean *)
Definition truthy (v : JSValue) : bool :=
  match v with
  | JUndefined | JNull => false
  | JBool b => b
  | JNum z => negb (Z.eqb z 0)
  | JStr s => negb (String.eqb s EmptyString)
  | JArr _ | JObj _ => true
  end.

Definition nullish (v : JSValue) : bool :=
  match v with
  | JUndefined | JNull => true
  | _ => false
  end.

Fixpoint lookup (k : string) (l : list (string * JSValue)) : JSValue :=
  match l with
  | [] => JUndefined
  | (k', v) :: r => if String.eqb k k' then v else lookup k r
  end.

Definition Z_to_string (z : Z) : string :=
  NilZero.string_of_int (Z.to_int z).

(** [v.k] for the property names of the source, none of which is an
    array index or a built-in of a primitive's prototype other than
    [length]. *)
Definition get (v : JSValue) (k : string) : Result JSValue :=
  match v with
  | JUndefined | JNull => Throw (TypeError (ReadOfNullish v k))
  | JObj l => Ok (lookup k l)
  | JArr l => Ok (if String.eqb k "length" then JNum (Z.of_nat (List.length l))
                  else JUndefined)
  | JStr s => Ok (if String.eqb k "length" then JNum (Z.of_nat (String.length s))
                  else JUndefined)
  | JBool _ | JNum _ => Ok JUndefined
  end.

(** [a === b] against a string literal. *)
Definition strict_eq_str (v : JSValue) (s : string) : bool :=
  match v with
  | JStr s' => String.eqb s' s
  | _ => false
  end.

Fixpoint join (sep : string) (l : list string) : string :=
  match l with
  | [] => EmptyString
  | [x] => x
  | x :: r => x ++ sep ++ join sep r
  end.

(** ToString, as a template literal applies it. *)
Fixpoint toString (v : JSValue) : string :=
  match v with
  | JUndefined => "undefined"
  | JNull => "null"
  | JBool true => "true"
  | JBool false => "false"
  | JNum z => Z_to_string z
  | JStr s => s
  | JArr l =>
      join "," (map (fun x => if nullish x then EmptyString else toString x) l)
  | JObj _ => "[object Object]"
  end.

(** [String.prototype.includes] *)
Fixpoint includes (hay needle : string) : bool :=
  if String.prefix needle hay then true
  else match hay with
       | EmptyString => false
       | String _ r => includes r needle
       end.

(** Iteration protocol of [for (const x of v)]: arrays yield their
    elements, strings their characters; nothing else among the JSON
    values is iterable. *)
Fixpoint chars (s : string) : list JSValue :=
  match s with
  | EmptyString => []
  | String c r => JStr (String c EmptyString) :: chars r
  end.

Definition iterate (v : JSValue) (what : string) : Result (list JSValue) :=
  match v with
  | JArr l => Ok l
  | JStr s => Ok (chars s)
  | _ => Throw (TypeError (NotIterable what))
  end.

(** *** JSON.stringify

    [serialize gap indent v] is SerializeJSONProperty with the given gap
    at the current indentation; [None] is the result [undefined]. *)

Definition dquote : string := String "034"%char EmptyString.
Definition backslash : string := String "092"%char EmptyString.
Definition newline : string := String "010"%char EmptyString.

Definition hex_digit (n : nat) : string :=
  String (ascii_of_nat (if Nat.ltb n 10 then 48 + n else 87 + n)) EmptyString.

Definition quote_char (c : ascii) : string :=
  let n := nat_of_ascii c in
  if Nat.eqb n 34 then backslash ++ dquote
  else if Nat.eqb n 92 then backslash ++ backslash
  else if Nat.eqb n 8 then backslash ++ "b"
  else if Nat.eqb n 9 then backslash ++ "t"
  else if Nat.eqb n 10 then backslash ++ "n"
  else if Nat.eqb n 12 then backslash ++ "f"
  else if Nat.eqb n 13 then backslash ++ "r"
  else if Nat.ltb n 32 then backslash ++ "u00" ++ hex_digit (n / 16) ++ hex_digit (n mod 16)
  else String c EmptyString.

Fixpoint quote_body (s : string) : string :=
  match s with
  | EmptyString => EmptyString
  | String c r => quote_char c ++ quote_body r
  end.

(** QuoteJSONString *)
Definition quote (s : string) : string := dquote ++ quote_body s ++ dquote.

Definition is_empty (s : string) : bool :=
  match s with EmptyString => true | _ => false end.

Definition wrap (opening closing gap indent : string) (parts : list string) : string :=
  match parts with
  | [] => opening ++ closing
  | _ =>
      if is_empty gap then opening ++ join "," parts ++ closing
      else
        let stepback := indent in
        let indent := indent ++ gap in
        opening ++ newline ++ indent
        ++ join ("," ++ newline ++ indent) parts
        ++ newline ++ stepback ++ closing
  end.

Fixpoint serialize (gap indent : string) (v : JSValue) : option string :=
  match v with
  | JUndefined => None
  | JNull => Some "null"
  | JBool true => Some "true"
  | JBool false => Some "false"
  | JNum z => Some (Z_to_string z)
  | JStr s => Some (quote s)
  | JArr l =>
      let element x :=
        match serialize gap (indent ++ gap) x with
        | Some s => s
        | None => "null"
        end in
      Some (wrap "[" "]" gap indent (map element l))
  | JObj kvs =>
      let members :=
        (fix members (kvs : list (string * JSValue)) : list string :=
           match kvs with
           | [] => []
           | (k, x) :: r =>
               match serialize gap (indent ++ gap) x with
               | Some s =>
                   (quote k ++ ":" ++ (if is_empty gap then EmptyString else " ") ++ s)
                     :: members r
               | None => members r
               end
           end) kvs in
      Some (wrap "{" "}" gap indent members)
  end.

(** [JSON.stringify(v)] *)
Definition stringify (v : JSValue) : option string :=
  serialize EmptyString EmptyString v.

(** [JSON.stringify(v, null, 2)] *)
Definition stringify_pretty (v : JSValue) : option string :=
  serialize "  " EmptyString v.

End JS.

(** Induction over values that reaches inside arrays and objects. *)

Section JSValueInduction.

Variable P : JSValue -> Prop.
Hypothesis P_undefined : P JUndefined.
Hypothesis P_null : P JNull.
Hypothesis P_bool : forall b, P (JBool b).
Hypothesis P_num : forall z, P (JNum z).
Hypothesis P_str : forall s, P (JStr s).
Hypothesis P_arr : forall l, Forall P l -> P (JArr l).
Hypothesis P_obj : forall l, Forall (fun kv => P (snd kv)) l -> P (JObj l).

Fixpoint JSValue_nested_ind (v : JSValue) : P v :=
  match v with
  | JUndefined => P_undefined
  | JNull => P_null
  | JBool b => P_bool b
  | JNum z => P_num z
  | JStr s => P_str s
  | JArr l =>
      P_arr l
        ((fix all (l : list JSValue) : Forall P l :=
            match l with
            | [] => Forall_nil P
            | x :: r => Forall_cons x (JSValue_nested_ind x) (all r)
            end) l)
  | JObj l =>
      P_obj l
        ((fix all (l : list (string * JSValue)) : Forall (fun kv => P (snd kv)) l :=
            match l with
            | [] => Forall_nil _
            | kv :: r => Forall_cons kv (JSValue_nested_ind (snd kv)) (all r)
            end) l)
  end.

End JSValueInduction.

(** ** Results of a check run *)

Inductive Status : Type := PASS | FAIL | ERROR.

Inductive ResourceType : Type := SecurityGroup | S3Bucket | IAMRole | EKSCluster.

(** One entry of a resource's [checks] array. *)
Record Verdict : Type := mkVerdict {
  name : string;
  status : Status;
  details : JSValue
}.

(** What a [checkXxx] function returns. *)
Record ResourceCheck : Type := mkResourceCheck {
  resourceType : ResourceType;
  resourceId : JSValue;
  checks : list Verdict
}.

(** The [results] object of [runSecurityChecks]. *)
Record Results : Type := mkResults {
  timestamp : string;
  environment : JSValue;
  results_checks : list ResourceCheck
}.

(** The batch [resources] that [getTaggedResources] hands over. *)
Record Resources : Type := mkResources {
  securityGroups : list JSValue;
  s3Buckets : list JSValue;
  iamRoles : list JSValue;
  eksClusters : list JSValue
}.

Definition Status_eqb (a b : Status) : bool :=
  match a, b with
  | PASS, PASS | FAIL, FAIL | ERROR, ERROR => true
  | _, _ => false
  end.

Definition Status_to_string (s : Status) : string :=
  match s with PASS => "PASS" | FAIL => "FAIL" | ERROR => "ERROR" end.

Definition ResourceType_to_string (t : ResourceType) : string :=
  match t with
  | SecurityGroup => "SecurityGroup"
  | S3Bucket => "S3Bucket"
  | IAMRole => "IAMRole"
  | EKSCluster => "EKSCluster"
  end.

(** The objects as [JSON.stringify] sees them. *)
Definition Verdict_to_js (v : Verdict) : JSValue :=
  JObj [("name", JStr (name v));
        ("status", JStr (Status_to_string (status v)));
        ("details", details v)].

Definition ResourceCheck_to_js (c : ResourceCheck) : JSValue :=
  JObj [("resourceType", JStr (ResourceType_to_string (resourceType c)));
        ("resourceId", resourceId c);
        ("checks", JArr (map Verdict_to_js (checks c)))].

Definition Results_to_js (r : Results) : JSValue :=
  JObj [("timestamp", JStr (timestamp r));
        ("environment", environment r);
        ("checks", JArr (map ResourceCheck_to_js (results_checks r)))].

(** ** The world outside the function *)

Record Dimension : Type := mkDimension {
  Name : string;
  DimensionValue : JSValue
}.

Record MetricDatum : Type := mkMetricDatum {
  MetricName : string;
  Value : nat;
  Unit : string;
  Dimensions : list Dimension
}.

Record PutMetricDataInput : Type := mkPutMetricData {
  Namespace : string;
  MetricData : list MetricDatum
}.

Record PublishInput : Type := mkPublish {
  TopicArn : JSValue;
  Subject : string;
  Message : option string
}.

(** Requests sent to CloudWatch and SNS, in the order they were made. *)
Inductive Request : Type :=
| CloudWatchPutMetricData (i : PutMetricDataInput)
| SnsPublish (i : PublishInput).

Inductive LogEntry : Type :=
| ConsoleLog (msg : string)
| ConsoleError (msg : string) (e : JSError).

(** The answers of the AWS services during one invocation, and the wording
    the JavaScript engine gives its own TypeErrors.  The listing calls of
    [getTaggedResources] (EC2, S3, IAM, EKS) are taken by their outcome,
    [tagged_resources]: the batch, or the error of the first call that
    failed. *)
Record Env : Type := mkEnv {
  tagged_resources : Result Resources;
  s3_getBucketPublicAccessBlock : JSValue -> Result JSValue;
  s3_getBucketEncryption : JSValue -> Result JSValue;
  iam_listRolePolicies : JSValue -> Result JSValue;
  iam_getRolePolicy : JSValue -> JSValue -> Result JSValue;
  eks_describeCluster : JSValue -> Result JSValue;
  cloudwatch_putMetricData : PutMetricDataInput -> Result unit;
  sns_publish : PublishInput -> Result unit;
  type_error_message : TypeErrorReason -> string
}.

(** Everything the code can observe or change besides its arguments:
    the console, the clock, the process environment and the requests
    already sent. *)
Record World : Type := mkWorld {
  console : list LogEntry;
  clock : nat -> string;
  ticks : nat;
  ENVIRONMENT : JSValue;
  SNS_TOPIC_ARN : JSValue;
  sent : list Request
}.

(** ** Exceptions over state

    [M S A]: a computation over a state [S] that returns an [A] or throws.
    What was written before a throw stays written. *)

Definition M (S A : Type) : Type := S -> Result A * S.

Definition ret {S A} (a : A) : M S A := fun s => (Ok a, s).

Definition bind {S A B} (c : M S A) (k : A -> M S B) : M S B :=
  fun s =>
    match c s with
    | (Ok a, s') => k a s'
    | (Throw e, s') => (Throw e, s')
    end.

Definition lift {S A} (r : Result A) : M S A := fun s => (r, s).

Definition try_catch {S A} (body : M S A) (handler : JSError -> M S A) : M S A :=
  fun s =>
    match body s with
    | (Ok a, s') => (Ok a, s')
    | (Throw e, s') => handler e s'
    end.

Declare Scope js_scope.
Delimit Scope js_scope with js.
Notation "x <- c ;; k" := (bind c (fun x => k))
  (at level 61, c at next level, right associativity) : js_scope.
Notation "c ;; k" := (bind c (fun _ => k))
  (at level 61, right associativity) : js_scope.
Local Open Scope js_scope.

(** A function that fills an array ([check.checks], [results.checks])
    works on that array and on the world. *)
Definition Filling (A : Type) : Type := (list A * World)%type.

Definition push {A} (a : A) : M (Filling A) unit :=
  fun '(l, w) => (Ok tt, ((l ++ [a])%list, w)).

(** [await c] inside such a function. *)
Definition await {A B} (c : M World B) : M (Filling A) B :=
  fun '(l, w) => let '(r, w') := c w in (r, (l, w')).

(** The array a block has filled when it ends normally, started empty. *)
Definition filled {A} (c : M (Filling A) unit) : M World (list A) :=
  fun w =>
    match c ([], w) with
    | (Ok _, (l, w')) => (Ok l, w')
    | (Throw e, (_, w')) => (Throw e, w')
    end.

Fixpoint for_of {S} (l : list JSValue) (body : JSValue -> M S unit) : M S unit :=
  match l with
  | [] => ret tt
  | x :: r => body x ;; for_of r body
  end.

Definition console_log (msg : string) : M World unit :=
  fun w => (Ok tt,
            mkWorld ((console w ++ [ConsoleLog msg])%list) (clock w) (ticks w)
                    (ENVIRONMENT w) (SNS_TOPIC_ARN w) (sent w)).

Definition console_error (msg : string) (e : JSError) : M World unit :=
  fun w => (Ok tt,
            mkWorld ((console w ++ [ConsoleError msg e])%list) (clock w) (ticks w)
                    (ENVIRONMENT w) (SNS_TOPIC_ARN w) (sent w)).

Definition getenv (var : World -> JSValue) : M World JSValue :=
  fun w => (Ok (var w), w).

(** [new Date().toISOString()] *)
Definition now : M World string :=
  fun w => (Ok (clock w (ticks w)),
            mkWorld (console w) (clock w) (S (ticks w))
                    (ENVIRONMENT w) (SNS_TOPIC_ARN w) (sent w)).

Definition send (r : Request) (answer : Result unit) : M World unit :=
  fun w => (answer,
            mkWorld (console w) (clock w) (ticks w)
                    (ENVIRONMENT w) (SNS_TOPIC_ARN w) ((sent w ++ [r])%list)).

(** [error.message] *)
Definition error_message (env : Env) (e : JSError) : string :=
  match e with
  | TypeError r => type_error_message env r
  | ServiceError _ msg => msg
  end.

(** [Array.prototype.some] with a callback that may throw: stops at the first
    truthy answer. *)
Fixpoint array_some (f : JSValue -> Result bool) (l : list JSValue) : Result bool :=
  match l with
  | [] => Ok false
  | x :: r =>
      match f x with
      | Throw e => Throw e
      | Ok true => Ok true
      | Ok false => array_some f r
      end
  end.

(** [v.some(f)], where the source text of [v.some] is [what]: only an array
    has the method. *)
Definition some (v : JSValue) (what : string) (f : JSValue -> Result bool) : Result bool :=
  match v with
  | JArr l => array_some f l
  | JUndefined | JNull => Throw (TypeError (ReadOfNullish v "some"))
  | _ => Throw (TypeError (NotAFunction what))
  end.

Definition rbind {A B} (r : Result A) (k : A -> Result B) : Result B :=
  match r with
  | Ok a => k a
  | Throw e => Throw e
  end.

Notation "x <-? r ;; k" := (rbind r (fun x => k))
  (at level 61, r at next level, right associativity) : js_scope.

(** ** The checks *)

Section Checks.

Variable env : Env.

(** [sg.IpPermissions.some(perm => perm.IpRanges.some(range =>
    range.CidrIp === '0.0.0.0/0'))] *)
Definition hasOpenPorts (sg : JSValue) : Result bool :=
  perms <-? JS.get sg "IpPermissions" ;;
  some perms "sg.IpPermissions.some" (fun perm =>
    ranges <-? JS.get perm "IpRanges" ;;
    some ranges "perm.IpRanges.some" (fun range =>
      cidr <-? JS.get range "CidrIp" ;;
      Ok (JS.strict_eq_str cidr "0.0.0.0/0"))).

Definition checkSecurityGroup (sg : JSValue) : M World ResourceCheck :=
  id <- lift (JS.get sg "GroupId") ;;
  checks <- filled (
    open <- lift (hasOpenPorts sg) ;;
    push (mkVerdict "open-ports"
            (if open then FAIL else PASS)
            (if open then JStr "Security group has ports open to 0.0.0.0/0"
             else JNull))) ;;
  ret (mkResourceCheck SecurityGroup id checks).

Definition checkS3Bucket (bucket : JSValue) : M World ResourceCheck :=
  id <- lift (JS.get bucket "Name") ;;
  checks <- filled (
    try_catch (
      Bucket <- lift (JS.get bucket "Name") ;;
      publicAccess <- lift (s3_getBucketPublicAccessBlock env Bucket) ;;
      conf <- lift (JS.get publicAccess "PublicAccessBlockConfiguration") ;;
      block <- lift (JS.get conf "BlockPublicAcls") ;;
      push (mkVerdict "public-access"
              (if JS.truthy block then PASS else FAIL)
              (JStr "Public access block configuration")) ;;
      Bucket <- lift (JS.get bucket "Name") ;;
      encryption <- lift (s3_getBucketEncryption env Bucket) ;;
      sse <- lift (JS.get encryption "ServerSideEncryptionConfiguration") ;;
      push (mkVerdict "encryption"
              (if JS.truthy sse then PASS else FAIL)
              (JStr "Default encryption configuration")))
    (fun error =>
      n <- lift (JS.get bucket "Name") ;;
      await (console_error ("Error checking bucket " ++ JS.toString n ++ ":") error) ;;
      push (mkVerdict "bucket-check" ERROR (JStr (error_message env error))))) ;;
  ret (mkResourceCheck S3Bucket id checks).

(** The text the role check looks for in a serialized policy document:
    ["Action": "*"], with one space after the colon. *)
Definition wildcard_pattern : string :=
  JS.dquote ++ "Action" ++ JS.dquote ++ ": " ++ JS.dquote ++ "*" ++ JS.dquote.

(** [JSON.stringify(doc).includes('"Action": "*"')] *)
Definition hasWildcardPermissions (doc : JSValue) : Result bool :=
  match JS.stringify doc with
  | Some text => Ok (JS.includes text wildcard_pattern)
  | None => Throw (TypeError (ReadOfNullish JUndefined "includes"))
  end.

Definition checkIAMRole (role : JSValue) : M World ResourceCheck :=
  id <- lift (JS.get role "RoleName") ;;
  checks <- filled (
    try_catch (
      RoleName <- lift (JS.get role "RoleName") ;;
      policies <- lift (iam_listRolePolicies env RoleName) ;;
      names <- lift (JS.get policies "PolicyNames") ;;
      names <- lift (JS.iterate names "policies.PolicyNames") ;;
      for_of names (fun policyName =>
        RoleName <- lift (JS.get role "RoleName") ;;
        policy <- lift (iam_getRolePolicy env RoleName policyName) ;;
        doc <- lift (JS.get policy "PolicyDocument") ;;
        wildcard <- lift (hasWildcardPermissions doc) ;;
        push (mkVerdict ("policy-" ++ JS.toString policyName)
                (if wildcard then FAIL else PASS)
                (if wildcard then JStr "Policy contains wildcard permissions"
                 else JNull))))
    (fun error =>
      n <- lift (JS.get role "RoleName") ;;
      await (console_error ("Error checking role " ++ JS.toString n ++ ":") error) ;;
      push (mkVerdict "role-check" ERROR (JStr (error_message env error))))) ;;
  ret (mkResourceCheck IAMRole id checks).

Definition checkEKSCluster (clusterName : JSValue) : M World ResourceCheck :=
  checks <- filled (
    try_catch (
      cluster <- lift (eks_describeCluster env clusterName) ;;
      c <- lift (JS.get cluster "cluster") ;;
      vpc <- lift (JS.get c "resourcesVpcConfig") ;;
      private <- lift (JS.get vpc "endpointPrivateAccess") ;;
      push (mkVerdict "private-endpoint"
              (if JS.truthy private then PASS else FAIL)
              (JStr "Private endpoint access configuration")) ;;
      c <- lift (JS.get cluster "cluster") ;;
      encryptionConfig <- lift (JS.get c "encryptionConfig") ;;
      push (mkVerdict "encryption"
              (if JS.truthy encryptionConfig then PASS else FAIL)
              (JStr "Encryption configuration")) ;;
      c <- lift (JS.get cluster "cluster") ;;
      logging <- lift (JS.get c "logging") ;;
      clusterLogging <- lift (JS.get logging "clusterLogging") ;;
      enabled <- lift (some clusterLogging "cluster.cluster.logging.clusterLogging.some" (fun l =>
                   e <-? JS.get l "enabled" ;; Ok (JS.truthy e))) ;;
      push (mkVerdict "logging"
              (if enabled then PASS else FAIL)
              (JStr "Control plane logging configuration")))
    (fun error =>
      await (console_error ("Error checking cluster " ++ JS.toString clusterName ++ ":") error) ;;
      push (mkVerdict "cluster-check" ERROR (JStr (error_message env error))))) ;;
  ret (mkResourceCheck EKSCluster clusterName checks).

Definition runSecurityChecks (resources : Resources) : M World Results :=
  timestamp <- now ;;
  environment <- getenv ENVIRONMENT ;;
  checks <- filled (
    for_of (securityGroups resources) (fun sg =>
      c <- await (checkSecurityGroup sg) ;; push c) ;;
    for_of (s3Buckets resources) (fun bucket =>
      c <- await (checkS3Bucket bucket) ;; push c) ;;
    for_of (iamRoles resources) (fun role =>
      c <- await (checkIAMRole role) ;; push c) ;;
    for_of (eksClusters resources) (fun cluster =>
      c <- await (checkEKSCluster cluster) ;; push c)) ;;
  ret (mkResults timestamp environment checks).

(** ** Publishing *)

Record Alert : Type := mkAlert {
  title : string;
  message : string;
  severity : string;
  alert_details : JSValue
}.

Definition alert_payload (a : Alert) (timestamp : string) : JSValue :=
  JObj [("message", JStr (message a));
        ("severity", JStr (severity a));
        ("timestamp", JStr timestamp);
        ("details", alert_details a)].

Definition sendAlert (a : Alert) : M World unit :=
  try_catch (
    topic <- getenv SNS_TOPIC_ARN ;;
    timestamp <- now ;;
    let input :=
      mkPublish topic ("[" ++ severity a ++ "] " ++ title a)
                (JS.stringify_pretty (alert_payload a timestamp)) in
    send (SnsPublish input) (sns_publish env input))
  (fun error =>
    console_error "Error sending alert:" error ;;
    lift (Throw error)).

(** [results.checks.reduce((count, check) =>
      count + check.checks.filter(c => c.status === STATUS.FAIL).length, 0)] *)
Definition failures (results : Results) : nat :=
  fold_left
    (fun count check =>
       count + List.length (filter (fun c => Status_eqb (status c) FAIL) (checks check)))
    (results_checks results) 0.

Definition processResults (results : Results) : M World unit :=
  let failures := failures results in
  environment <- getenv ENVIRONMENT ;;
  let input :=
    mkPutMetricData "CloudSecDemo"
      [mkMetricDatum "SecurityCheckFailures" failures "Count"
         [mkDimension "Environment" environment]] in
  send (CloudWatchPutMetricData input) (cloudwatch_putMetricData env input) ;;
  if (0 <? failures)%nat then
    sendAlert (mkAlert "Security Check Failures"
                 ("Found " ++ JS.Z_to_string (Z.of_nat failures)
                  ++ " security check failures")
                 "HIGH"
                 (Results_to_js results))
  else ret tt.

(** ** The handler *)

Definition getTaggedResources : M World Resources :=
  try_catch (lift (tagged_resources env))
    (fun error =>
      console_error "Error getting resources:" error ;;
      lift (Throw error)).

Record Response : Type := mkResponse {
  statusCode : Z;
  body : option string
}.

Definition handler : M World Response :=
  console_log "Starting security check run" ;;
  try_catch (
    resources <- getTaggedResources ;;
    results <- runSecurityChecks resources ;;
    processResults results ;;
    ret (mkResponse 200 (JS.stringify (Results_to_js results))))
  (fun error =>
    console_error "Error in security check:" error ;;
    sendAlert (mkAlert "Security Check Error" (error_message env error)
                 "CRITICAL" JUndefined) ;;
    lift (Throw error)).

End Checks.

(** The wording of V8 (Node.js 16 and later). *)
Definition v8_message (r : TypeErrorReason) : string :=
  match r with
  | ReadOfNullish v k =>
      "Cannot read properties of " ++ JS.toString v ++ " (reading '" ++ k ++ "')"
  | NotAFunction callee => callee ++ " is not a function"
  | NotIterable what => what ++ " is not iterable"
  end.

Definition access_denied {A} : Result A :=
  Throw (ServiceError "AccessDenied" "Access Denied").

(** An account in which every read is refused and every write accepted. *)
Definition closed_account : Env :=
  mkEnv access_denied (fun _ => access_denied) (fun _ => access_denied)
        (fun _ => access_denied) (fun _ _ => access_denied)
        (fun _ => access_denied)
        (fun _ => Ok tt) (fun _ => Ok tt)
        v8_message.

(** A security group whose permission names a peer group and no IP range. *)
Definition sg_peer_only : JSValue :=
  JObj [("GroupId", JStr "sg-0a1b");
        ("IpPermissions",
         JArr [JObj [("IpProtocol", JStr "tcp");
                     ("UserIdGroupPairs", JArr [JObj [("GroupId", JStr "sg-9f8e")]])]])].

(** An account whose only tagged resource is that security group. *)
Definition peer_account : Env :=
  mkEnv (Ok (mkResources [sg_peer_only] [] [] []))
        (fun _ => access_denied) (fun _ => access_denied)
        (fun _ => access_denied) (fun _ _ => access_denied)
        (fun _ => access_denied)
        (fun _ => Ok tt) (fun _ => Ok tt)
        v8_message.

Definition fresh_world : World :=
  mkWorld [] (fun n => "2024-01-01T00:00:0" ++ JS.Z_to_string (Z.of_nat n) ++ ".000Z") 0
          (JStr "secure") (JStr "arn:aws:sns:us-east-1:123456789012:alerts") [].

(** A world with nothing in it, to read a check's answer where the world
    cannot matter. *)
Definition blank_world : World :=
  mkWorld [] (fun _ => EmptyString) 0 JUndefined JUndefined [].

(** The batch in the order the run visits it. *)
Definition descriptors (resources : Resources) : list (ResourceType * JSValue) :=
  (map (pair SecurityGroup) (securityGroups resources)
   ++ map (pair S3Bucket) (s3Buckets resources)
   ++ map (pair IAMRole) (iamRoles resources)
   ++ map (pair EKSCluster) (eksClusters resources))%list.

Definition check_of (env : Env) (d : ResourceType * JSValue) : M World ResourceCheck :=
  match fst d with
  | SecurityGroup => checkSecurityGroup (snd d)
  | S3Bucket => checkS3Bucket env (snd d)
  | IAMRole => checkIAMRole env (snd d)
  | EKSCluster => checkEKSCluster env (snd d)
  end.

(** The answer of a check, read in the blank world. *)
Definition check_result (env : Env) (d : ResourceType * JSValue) : Result ResourceCheck :=
  fst (check_of env d blank_world).

(** Left-to-right map that stops at the first throw. *)
Fixpoint mapR {A B} (f : A -> Result B) (l : list A) : Result (list B) :=
  match l with
  | [] => Ok []
  | x :: r =>
      y <-? f x ;;
      ys <-? mapR f r ;;
      Ok (y :: ys)
  end.

Definition checks_of_result (r : Result ResourceCheck) : list Verdict :=
  match r with
  | Ok c => checks c
  | Throw _ => []
  end.

Definition map_result {A B} (f : A -> B) (r : Result A) : Result B :=
  match r with
  | Ok a => Ok (f a)
  | Throw e => Throw e
  end.

(** ** Computations that do not look at the world

    Nothing in a check reads the console, the clock or the process
    environment: its answer and the array it fills are the same in every
    world. *)

Definition oblivious {A B} (c : M (Filling A) B) : Prop :=
  forall l w1 w2,
    fst (c (l, w1)) = fst (c (l, w2))
    /\ fst (snd (c (l, w1))) = fst (snd (c (l, w2))).

Definition oblivious_w {B} (c : M World B) : Prop :=
  forall w1 w2, fst (c w1) = fst (c w2).

(** A block that appends to the array the answers [r] collected so far, or
    throws what [r] throws. *)
Definition collects (c : M (Filling ResourceCheck) unit)
    (r : Result (list ResourceCheck)) : Prop :=
  forall acc w,
    match r with
    | Ok cs => exists w', c (acc, w) = (Ok tt, ((acc ++ cs)%list, w'))
    | Throw e => exists st, c (acc, w) = (Throw e, st)
    end.

(** ** Rules by kind

    What each check function evaluates, read off its body. *)

Definition id_of (d : ResourceType * JSValue) : Result JSValue :=
  match fst d with
  | SecurityGroup => JS.get (snd d) "GroupId"
  | S3Bucket => JS.get (snd d) "Name"
  | IAMRole => JS.get (snd d) "RoleName"
  | EKSCluster => Ok (snd d)
  end.

(** The inline policies the role check loops over. *)
Definition policy_names (env : Env) (role : JSValue) : Result (list JSValue) :=
  RoleName <-? JS.get role "RoleName" ;;
  policies <-? iam_listRolePolicies env RoleName ;;
  names <-? JS.get policies "PolicyNames" ;;
  JS.iterate names "policies.PolicyNames".

Definition policy_verdict_name (policyName : JSValue) : string :=
  "policy-" ++ JS.toString policyName.

(** The rules applicable to a descriptor, in evaluation order; [None] when
    they cannot be listed (the role's policies cannot be read). *)
Definition applicable_rules (env : Env) (d : ResourceType * JSValue)
    : option (list string) :=
  match fst d with
  | SecurityGroup => Some ["open-ports"]
  | S3Bucket => Some ["public-access"; "encryption"]
  | IAMRole =>
      match policy_names env (snd d) with
      | Ok names => Some (map policy_verdict_name names)
      | Throw _ => None
      end
  | EKSCluster => Some ["private-endpoint"; "encryption"; "logging"]
  end.

(** The verdict a kind's catch block pushes. *)
Definition error_verdict (t : ResourceType) : option string :=
  match t with
  | SecurityGroup => None
  | S3Bucket => Some "bucket-check"
  | IAMRole => Some "role-check"
  | EKSCluster => Some "cluster-check"
  end.

(** The verdict names of one resource follow its rules in order: all of
    them, or those evaluated before an error followed by the kind's error
    verdict. *)
Definition in_rule_order (rules : option (list string)) (err : option string)
    (names : list string) : Prop :=
  match rules with
  | Some rules =>
      names = rules
      \/ exists k e, (k < List.length rules)%nat /\ err = Some e
                     /\ names = (firstn k rules ++ [e])%list
  | None => exists e, err = Some e /\ names = [e]
  end.

Definition verdicts_of (env : Env) (d : ResourceType * JSValue) (c : ResourceCheck)
    : Prop :=
  resourceType c = fst d
  /\ id_of d = Ok (resourceId c)
  /\ in_rule_order (applicable_rules env d) (error_verdict (fst d))
                   (map name (checks c)).

(** ** Well-formed descriptors

    The shape EC2 documents for a security group: [IpPermissions] is an
    array of permissions, each with an array [IpRanges] of range objects. *)

Definition wf_IpPermission (perm : JSValue) : bool :=
  match JS.get perm "IpRanges" with
  | Ok (JArr ranges) => forallb (fun range => negb (JS.nullish range)) ranges
  | _ => false
  end.

Definition wf_SecurityGroup (sg : JSValue) : bool :=
  match JS.get sg "IpPermissions" with
  | Ok (JArr perms) => forallb wf_IpPermission perms
  | _ => false
  end.

(** A batch whose security groups have that shape and whose buckets and
    roles are objects or primitives, not [null] or [undefined]. *)
Definition wf_batch (resources : Resources) : bool :=
  forallb wf_SecurityGroup (securityGroups resources)
  && forallb (fun bucket => negb (JS.nullish bucket)) (s3Buckets resources)
  && forallb (fun role => negb (JS.nullish role)) (iamRoles resources).

(** The specification's condition for the open-ports rule to fail: some
    ingress permission has an IP range whose CIDR is exactly 0.0.0.0/0. *)
Definition open_to_world (sg : JSValue) : Prop :=
  exists perms perm ranges range,
    JS.get sg "IpPermissions" = Ok (JArr perms)
    /\ In perm perms
    /\ JS.get perm "IpRanges" = Ok (JArr ranges)
    /\ In range ranges
    /\ JS.get range "CidrIp" = Ok (JStr "0.0.0.0/0").

Definition wf_descriptor (d : ResourceType * JSValue) : bool :=
  match fst d with
  | SecurityGroup => wf_SecurityGroup (snd d)
  | S3Bucket | IAMRole => negb (JS.nullish (snd d))
  | EKSCluster => true
  end.

(** ** Sample inputs *)

Definition sg_without_permissions : JSValue :=
  JObj [("GroupId", JStr "sg-0a1b")].

Definition sg_open : JSValue :=
  JObj [("GroupId", JStr "sg-0a1b");
        ("IpPermissions",
         JArr [JObj [("IpProtocol", JStr "tcp");
                     ("IpRanges", JArr [JObj [("CidrIp", JStr "10.0.0.0/8")];
                                        JObj [("CidrIp", JStr "0.0.0.0/0")]])]])].

Definition sg_closed : JSValue :=
  JObj [("GroupId", JStr "sg-0a1b");
        ("IpPermissions",
         JArr [JObj [("IpProtocol", JStr "tcp");
                     ("IpRanges", JArr [JObj [("CidrIp", JStr "10.0.0.0/8")]])]])].

(** The cluster of the end-to-end scenario. *)
Definition scenario_cluster : JSValue :=
  JObj [("cluster",
         JObj [("name", JStr "cloudsecdemo-cluster");
               ("resourcesVpcConfig", JObj [("endpointPrivateAccess", JBool false)]);
               ("logging",
                JObj [("clusterLogging",
                       JArr [JObj [("type", JStr "api");
                                   ("enabled", JBool false)]])])])].

Definition scenario_account : Env :=
  mkEnv (Ok (mkResources [] [] [] [JStr "cloudsecdemo-cluster"]))
        (fun _ => access_denied) (fun _ => access_denied)
        (fun _ => access_denied) (fun _ _ => access_denied)
        (fun name =>
           if JS.strict_eq_str name "cloudsecdemo-cluster" then Ok scenario_cluster
           else access_denied)
        (fun _ => Ok tt) (fun _ => Ok tt)
        v8_message.

Definition mixed_batch : Resources :=
  mkResources [sg_open; sg_closed]
              [JObj [("Name", JStr "cloudsecdemo-data")]]
              [JObj [("RoleName", JStr "cloudsecdemo-node")]]
              [JStr "cloudsecdemo-cluster"].

(** A role with one inline policy whose document allows every action. *)
Definition wildcard_document : JSValue :=
  JObj [("Action", JStr "*"); ("Effect", JStr "Allow"); ("Resource", JStr "*")].

Definition admin_role : JSValue := JObj [("RoleName", JStr "cloudsecdemo-admin")].

Definition wildcard_account : Env :=
  mkEnv (Ok (mkResources [] [] [admin_role] [])) (fun _ => access_denied) (fun _ => access_denied)
        (fun _ => Ok (JObj [("PolicyNames", JArr [JStr "admin"])]))
        (fun RoleName PolicyName =>
           Ok (JObj [("RoleName", RoleName); ("PolicyName", PolicyName);
                     ("PolicyDocument", wildcard_document)]))
        (fun _ => access_denied)
        (fun _ => Ok tt) (fun _ => Ok tt)
        v8_message.

(** A bucket whose public access block answer carries no
    [PublicAccessBlockConfiguration], and which is encrypted. *)
Definition data_bucket : JSValue := JObj [("Name", JStr "cloudsecdemo-data")].

Definition bucket_account : Env :=
  mkEnv (Ok (mkResources [] [data_bucket] [] [])) (fun _ => Ok (JObj []))
        (fun _ => Ok (JObj [("ServerSideEncryptionConfiguration",
                             JObj [("Rules", JArr [JObj [("BucketKeyEnabled", JBool true)]])])]))
        (fun _ => access_denied) (fun _ _ => access_denied)
        (fun _ => access_denied)
        (fun _ => Ok tt) (fun _ => Ok tt)
        v8_message.

(** ** The specification's readings *)

(** C2 as the specification words it: the public-access rule answers ERROR
    for the bucket and the encryption rule still has its own verdict. *)
Definition public_access_error_isolated (env : Env) (bucket : JSValue) (w : World)
    : Prop :=
  exists c w',
    checkS3Bucket env bucket w = (Ok c, w')
    /\ (exists v, In v (checks c) /\ name v = "public-access" /\ status v = ERROR)
    /\ (exists v, In v (checks c) /\ name v = "encryption").

(** The verdicts of a report, resource after resource. *)
Definition all_verdicts (results : Results) : list Verdict :=
  flat_map checks (results_checks results).

(** The number of FAIL verdicts: one per FAIL, nothing for PASS and ERROR. *)
Fixpoint count_FAIL (vs : list Verdict) : nat :=
  match vs with
  | [] => 0
  | v :: r =>
      match status v with
      | FAIL => 1 + count_FAIL r
      | PASS | ERROR => count_FAIL r
      end
  end.

(** The request that publishes the total [n] from a process whose
    [ENVIRONMENT] is [environment]. *)
Definition failures_metric (n : nat) (environment : JSValue) : PutMetricDataInput :=
  mkPutMetricData "CloudSecDemo"
    [mkMetricDatum "SecurityCheckFailures" n "Count"
       [mkDimension "Environment" environment]].

Definition alerts (requests : list Request) : list PublishInput :=
  flat_map (fun r => match r with SnsPublish i => [i] | _ => [] end) requests.

(** C5 as the specification words it: after a run, in a world where nothing
    had been sent, an alert has been emitted exactly when the report has a
    FAIL verdict. *)
Definition alert_iff_failures (env : Env) (results : Results) (w : World) : Prop :=
  alerts (sent (snd (processResults env results w))) <> []
  <-> (0 < count_FAIL (all_verdicts results))%nat.

(** An account without tagged resources in which CloudWatch refuses the
    metric. *)
Definition throttled_account : Env :=
  mkEnv (Ok (mkResources [] [] [] [])) (fun _ => access_denied) (fun _ => access_denied)
        (fun _ => access_denied) (fun _ _ => access_denied)
        (fun _ => access_denied)
        (fun _ => Throw (ServiceError "Throttling" "Rate exceeded"))
        (fun _ => Ok tt)
        v8_message.

Definition failing_report : Results :=
  mkResults "2024-01-01T00:00:00.000Z" (JStr "insecure")
    [mkResourceCheck SecurityGroup (JStr "sg-0a1b")
       [mkVerdict "open-ports" FAIL
          (JStr "Security group has ports open to 0.0.0.0/0")];
     mkResourceCheck S3Bucket (JStr "cloudsecdemo-data")
       [mkVerdict "bucket-check" ERROR (JStr "Access Denied")]].

(** ** Reading a serialized document

    Where a reader of compact JSON text stands: outside any string, inside
    one, or just after a backslash inside one. *)

Inductive Lex : Type := Outside | Inside | Escaped.

Definition space : ascii := "032"%char.
Definition star : ascii := "042"%char.
Definition dquote_char : ascii := "034"%char.
Definition backslash_char : ascii := "092"%char.

(** One character further; [None] when a space or a star stands outside a
    string, which compact JSON text never has. *)
Definition lex_step (q : Lex) (c : ascii) : option Lex :=
  match q with
  | Outside =>
      if Ascii.eqb c dquote_char then Some Inside
      else if Ascii.eqb c space || Ascii.eqb c star then None
      else Some Outside
  | Inside =>
      if Ascii.eqb c dquote_char then Some Outside
      else if Ascii.eqb c backslash_char then Some Escaped
      else Some Inside
  | Escaped => Some Inside
  end.

Fixpoint lex_run (q : Lex) (s : string) : option Lex :=
  match s with
  | EmptyString => Some q
  | String c r =>
      match lex_step q c with
      | Some q' => lex_run q' r
      | None => None
      end
  end.

(** The middle of the text the role check looks for: a space, a quote, a
    star. *)
Definition space_quote_star : string :=
  String space (String dquote_char (String star EmptyString)).

(** ** The listing of tagged resources

    [getTaggedResources] call by call.  What the checks are given is its
    outcome; here is how the outcome comes about. *)

(** What calling a function gives back: a value, or, for an [async] function,
    a promise that settles later with a value or an error.  What the runtime
    does with a rejected promise that nobody awaits is outside the function
    that made it. *)
Inductive Returned : Type :=
| Returns (v : JSValue)
| ReturnsPromise (settles : Result JSValue).

(** ToBoolean of what a callback gave back: a promise is an object. *)
Definition Returned_truthy (r : Returned) : bool :=
  match r with
  | Returns v => JS.truthy v
  | ReturnsPromise _ => true
  end.

(** [Array.prototype.filter] with a callback that may throw. *)
Fixpoint array_filter (f : JSValue -> Result Returned) (l : list JSValue)
    : Result (list JSValue) :=
  match l with
  | [] => Ok []
  | x :: r =>
      kept <-? f x ;;
      rest <-? array_filter f r ;;
      Ok (if Returned_truthy kept then x :: rest else rest)
  end.

(** [v.filter(f)], where the source text of [v.filter] is [what]. *)
Definition filter_method (v : JSValue) (what : string)
    (f : JSValue -> Result Returned) : Result (list JSValue) :=
  match v with
  | JArr l => array_filter f l
  | JUndefined | JNull => Throw (TypeError (ReadOfNullish v "filter"))
  | _ => Throw (TypeError (NotAFunction what))
  end.

(** [v.includes(needle)] for a string [needle]: a substring test on a string,
    a membership test on an array; nothing else has the method. *)
Definition includes_method (v : JSValue) (what : string) (needle : string)
    : Result bool :=
  match v with
  | JStr s => Ok (JS.includes s needle)
  | JArr l => Ok (existsb (fun x => JS.strict_eq_str x needle) l)
  | JUndefined | JNull => Throw (TypeError (ReadOfNullish v "includes"))
  | _ => Throw (TypeError (NotAFunction what))
  end.

Module Listing.

(** The process environment when [config.js] is loaded, and the answers of
    the listing calls. *)
Record Account : Type := mkAccount {
  PROJECT_NAME_env : option string;
  PROJECT_TAG_env : option string;
  ec2_describeSecurityGroups : string -> Result JSValue;
  s3_listBuckets : Result JSValue;
  s3_getBucketTagging : JSValue -> Result JSValue;
  iam_listRoles : Result JSValue;
  eks_listClusters : Result JSValue
}.

(** [process.env.X || 'cloudsecdemo'] *)
Definition or_default (v : option string) : string :=
  match v with
  | Some s => if JS.is_empty s then "cloudsecdemo" else s
  | None => "cloudsecdemo"
  end.

Definition PROJECT_NAME (a : Account) : string := or_default (PROJECT_NAME_env a).
Definition PROJECT_TAG (a : Account) : string := or_default (PROJECT_TAG_env a).

(** The [resources] object as the function returns it. *)
Record Tagged : Type := mkTagged {
  securityGroups : JSValue;
  s3Buckets : list JSValue;
  iamRoles : list JSValue;
  eksClusters : list JSValue
}.

(** The body of the [try] block. *)
Definition listed (a : Account) : Result Tagged :=
  sgResponse <-? ec2_describeSecurityGroups a (PROJECT_TAG a) ;;
  securityGroups <-? JS.get sgResponse "SecurityGroups" ;;
  buckets <-? s3_listBuckets a ;;
  Buckets <-? JS.get buckets "Buckets" ;;
  s3Buckets <-? filter_method Buckets "buckets.Buckets.filter" (fun bucket =>
    Ok (ReturnsPromise (
      Bucket <-? JS.get bucket "Name" ;;
      tags <-? s3_getBucketTagging a Bucket ;;
      TagSet <-? JS.get tags "TagSet" ;;
      found <-? some TagSet "tags.TagSet.some" (fun tag =>
        Key <-? JS.get tag "Key" ;;
        if JS.strict_eq_str Key "Project" then
          Value <-? JS.get tag "Value" ;;
          Ok (JS.strict_eq_str Value (PROJECT_TAG a))
        else Ok false) ;;
      Ok (JBool found)))) ;;
  roles <-? iam_listRoles a ;;
  Roles <-? JS.get roles "Roles" ;;
  iamRoles <-? filter_method Roles "roles.Roles.filter" (fun role =>
    RoleName <-? JS.get role "RoleName" ;;
    found <-? includes_method RoleName "role.RoleName.includes" (PROJECT_NAME a) ;;
    Ok (Returns (JBool found))) ;;
  clusters <-? eks_listClusters a ;;
  names <-? JS.get clusters "clusters" ;;
  eksClusters <-? filter_method names "clusters.clusters.filter" (fun cluster =>
    found <-? includes_method cluster "cluster.includes" (PROJECT_NAME a) ;;
    Ok (Returns (JBool found))) ;;
  Ok (mkTagged securityGroups s3Buckets iamRoles eksClusters).

Definition getTaggedResources (a : Account) : M World Tagged :=
  try_catch (lift (listed a))
    (fun error =>
      console_error "Error getting resources:" error ;;
      lift (Throw error)).

(** Whether a listed role or cluster carries the project name. *)
Definition names_project (a : Account) (name : JSValue) : bool :=
  match name with
  | JStr s => JS.includes s (PROJECT_NAME a)
  | _ => false
  end.

Definition role_in_project (a : Account) (role : JSValue) : bool :=
  match JS.get role "RoleName" with
  | Ok RoleName => names_project a RoleName
  | Throw _ => false
  end.

Definition is_string (v : JSValue) : bool :=
  match v with JStr _ => true | _ => false end.

Definition has_string_RoleName (role : JSValue) : bool :=
  match JS.get role "RoleName" with
  | Ok RoleName => is_string RoleName
  | Throw _ => false
  end.

(** A sample account: two buckets, one of them untagged, three roles, two
    clusters. *)
Definition sample : Account :=
  mkAccount None (Some "demo")
    (fun tag => Ok (JObj [("SecurityGroups", JArr [sg_closed])]))
    (Ok (JObj [("Buckets", JArr [JObj [("Name", JStr "cloudsecdemo-data")];
                                 JObj [("Name", JStr "payroll")]])]))
    (fun Bucket =>
       if JS.strict_eq_str Bucket "cloudsecdemo-data"
       then Ok (JObj [("TagSet", JArr [JObj [("Key", JStr "Project");
                                             ("Value", JStr "demo")]])])
       else Throw (ServiceError "NoSuchTagSet" "The TagSet does not exist"))
    (Ok (JObj [("Roles", JArr [JObj [("RoleName", JStr "cloudsecdemo-node")];
                               JObj [("RoleName", JStr "billing")];
                               JObj [("RoleName", JStr "old-cloudsecdemo-admin")]])]))
    (Ok (JObj [("clusters", JArr [JStr "cloudsecdemo-cluster"; JStr "staging"])])).

(** The same account with a role entry that has no [RoleName]. *)
Definition sample_with_nameless_role : Account :=
  mkAccount None (Some "demo")
    (ec2_describeSecurityGroups sample) (s3_listBuckets sample)
    (s3_getBucketTagging sample)
    (Ok (JObj [("Roles", JArr [JObj [("RoleName", JStr "cloudsecdemo-node")];
                               JObj [("Arn", JStr "arn:aws:iam::123456789012:role/x")];
                               JObj [("RoleName", JStr "billing")]])]))
    (eks_listClusters sample).

End Listing.

(** ** Readings of the error paths *)

(** What one turn of the role check's loop learns about a policy: whether
    its document has the wildcard text, or the error that ends the loop. *)
Definition policy_wildcard (env : Env) (RoleName policyName : JSValue) : Result bool :=
  policy <-? iam_getRolePolicy env RoleName policyName ;;
  doc <-? JS.get policy "PolicyDocument" ;;
  hasWildcardPermissions doc.

Fixpoint count_ERROR (vs : list Verdict) : nat :=
  match vs with
  | [] => 0
  | v :: r =>
      match status v with
      | ERROR => 1 + count_ERROR r
      | PASS | FAIL => count_ERROR r
      end
  end.

Definition is_TypeError (e : JSError) : Prop :=
  match e with
  | TypeError _ => True
  | ServiceError _ _ => False
  end.

Definition is_role (c : ResourceCheck) : bool :=
  match resourceType c with
  | IAMRole => true
  | _ => false
  end.

(** The alert [processResults] sends for [n] failures. *)
Definition failures_alert (n : nat) (results : Results) (topic : JSValue)
    (timestamp : string) : PublishInput :=
  mkPublish topic "[HIGH] Security Check Failures"
    (JS.stringify_pretty
       (JObj [("message",
               JStr ("Found " ++ JS.Z_to_string (Z.of_nat n) ++ " security check failures"));
              ("severity", JStr "HIGH");
              ("timestamp", JStr timestamp);
              ("details", Results_to_js results)])).

(** The alert the handler sends for an error. *)
Definition error_alert (env : Env) (error : JSError) (topic : JSValue)
    (timestamp : string) : PublishInput :=
  mkPublish topic "[CRITICAL] Security Check Error"
    (JS.stringify_pretty
       (JObj [("message", JStr (error_message env error));
              ("severity", JStr "CRITICAL");
              ("timestamp", JStr timestamp);
              ("details", JUndefined)])).

(** A role with three inline policies, the second of which cannot be read. *)
Definition three_policies_account : Env :=
  mkEnv (Ok (mkResources [] [] [admin_role] [])) (fun _ => access_denied)
        (fun _ => access_denied)
        (fun _ => Ok (JObj [("PolicyNames", JArr [JStr "read"; JStr "write"; JStr "admin"])]))
        (fun RoleName PolicyName =>
           if JS.strict_eq_str PolicyName "write" then access_denied
           else Ok (JObj [("PolicyDocument", wildcard_document)]))
        (fun _ => access_denied)
        (fun _ => Ok tt) (fun _ => Ok tt)
        v8_message.

(** A bucket that blocks public ACLs and has no default encryption: S3
    answers the encryption lookup with an error. *)
Definition unencrypted_account : Env :=
  mkEnv (Ok (mkResources [] [data_bucket] [] []))
        (fun _ => Ok (JObj [("PublicAccessBlockConfiguration",
                             JObj [("BlockPublicAcls", JBool true)])]))
        (fun _ => Throw (ServiceError "ServerSideEncryptionConfigurationNotFoundError"
                           "The server side encryption configuration was not found"))
        (fun _ => access_denied) (fun _ _ => access_denied)
        (fun _ => access_denied)
        (fun _ => Ok tt) (fun _ => Ok tt)
        v8_message.

(** An account in which SNS refuses every message. *)
Definition silent_account : Env :=
  mkEnv access_denied (fun _ => access_denied) (fun _ => access_denied)
        (fun _ => access_denied) (fun _ _ => access_denied)
        (fun _ => access_denied)
        (fun _ => Ok tt)
        (fun _ => Throw (ServiceError "AuthorizationError" "Not authorized to publish"))
        v8_message.

(** A block of the run that adds one console error per ERROR verdict it
    collects and touches neither the clock nor the requests. *)
Definition logs_errors (c : M (Filling ResourceCheck) unit) : Prop :=
  forall acc w acc' w',
    c (acc, w) = (Ok tt, (acc', w')) ->
    exists cs,
      acc' = (acc ++ cs)%list
      /\ List.length (console w')
         = (List.length (console w) + count_ERROR (flat_map checks cs))%nat
      /\ sent w' = sent w
      /\ ticks w' = ticks w.

(** Whether a logging entry of a cluster is switched on. *)
Definition logging_enabled (entry : JSValue) : bool :=
  match JS.get entry "enabled" with
  | Ok enabled => JS.truthy enabled
  | Throw _ => false
  end.

(** A range that is not the whole IPv4 space. *)
Definition closed_range (range : JSValue) : bool :=
  negb (JS.nullish range)
  && match JS.get range "CidrIp" with
     | Ok cidr => negb (JS.strict_eq_str cidr "0.0.0.0/0")
     | Throw _ => false
     end.

(** A permission with an array of such ranges only. *)
Definition closed_permission (perm : JSValue) : bool :=
  match JS.get perm "IpRanges" with
  | Ok (JArr ranges) => forallb closed_range ranges
  | _ => false
  end.

(** A security group with one open range, behind which nothing is
    well-formed. *)
Definition sg_open_then_malformed : JSValue :=
  JObj [("GroupId", JStr "sg-0a1b");
        ("IpPermissions",
         JArr [JObj [("IpRanges", JArr [JObj [("CidrIp", JStr "10.0.0.0/8")]])];
               JObj [("IpRanges", JArr [JObj [("CidrIp", JStr "0.0.0.0/0")]; JNull])];
               JObj [("UserIdGroupPairs", JArr [])]])].

(** The world the handler's [try] block starts in. *)
Definition started (w : World) : World :=
  snd (console_log "Starting security check run" w).

(** The batch the loops of the run iterate over, given what the listing
    returned. *)
Definition batch_of (t : Listing.Tagged) : Result Resources :=
  groups <-? JS.iterate (Listing.securityGroups t) "resources.securityGroups" ;;
  Ok (mkResources groups (Listing.s3Buckets t) (Listing.iamRoles t)
        (Listing.eksClusters t)).

Definition is_bucket (c : ResourceCheck) : bool :=
  match resourceType c with
  | S3Bucket => true
  | _ => false
  end.

(** The account of the scenario with SNS refusing every message. *)
Definition silent_scenario_account : Env :=
  mkEnv (Ok (mkResources [] [] [] [JStr "cloudsecdemo-cluster"]))
        (fun _ => access_denied) (fun _ => access_denied)
        (fun _ => access_denied) (fun _ _ => access_denied)
        (fun name =>
           if JS.strict_eq_str name "cloudsecdemo-cluster" then Ok scenario_cluster
           else access_denied)
        (fun _ => Ok tt)
        (fun _ => Throw (ServiceError "AuthorizationError" "Not authorized to publish"))
        v8_message.

(** ** Rules as evaluations

    The check functions read the way the specification describes a run:
    every kind has its rules, in order, and evaluating a rule against a
    descriptor answers a status with details, or throws. *)

Record Rule : Type := mkRule {
  rule_name : string;
  evaluate : Result (Status * JSValue)
}.

(** index.js:156-164 *)
Definition open_ports_rule (sg : JSValue) : Rule :=
  mkRule "open-ports"
    (open <-? hasOpenPorts sg ;;
     Ok (if open then FAIL else PASS,
         if open then JStr "Security group has ports open to 0.0.0.0/0" else JNull)).

(** index.js:181-190 *)
Definition public_access_rule (env : Env) (bucket : JSValue) : Rule :=
  mkRule "public-access"
    (Bucket <-? JS.get bucket "Name" ;;
     publicAccess <-? s3_getBucketPublicAccessBlock env Bucket ;;
     conf <-? JS.get publicAccess "PublicAccessBlockConfiguration" ;;
     block <-? JS.get conf "BlockPublicAcls" ;;
     Ok (if JS.truthy block then PASS else FAIL,
         JStr "Public access block configuration")).

(** index.js:193-202 *)
Definition bucket_encryption_rule (env : Env) (bucket : JSValue) : Rule :=
  mkRule "encryption"
    (Bucket <-? JS.get bucket "Name" ;;
     encryption <-? s3_getBucketEncryption env Bucket ;;
     sse <-? JS.get encryption "ServerSideEncryptionConfiguration" ;;
     Ok (if JS.truthy sse then PASS else FAIL,
         JStr "Default encryption configuration")).

(** index.js:233-246, one turn of the loop over the policy names *)
Definition policy_rule (env : Env) (role policyName : JSValue) : Rule :=
  mkRule (policy_verdict_name policyName)
    (RoleName <-? JS.get role "RoleName" ;;
     wildcard <-? policy_wildcard env RoleName policyName ;;
     Ok (if wildcard then FAIL else PASS,
         if wildcard then JStr "Policy contains wildcard permissions" else JNull)).

(** index.js:271-281; the three cluster rules read the one answer of
    [describeCluster]. *)
Definition private_endpoint_rule (env : Env) (clusterName : JSValue) : Rule :=
  mkRule "private-endpoint"
    (cluster <-? eks_describeCluster env clusterName ;;
     c <-? JS.get cluster "cluster" ;;
     vpc <-? JS.get c "resourcesVpcConfig" ;;
     private <-? JS.get vpc "endpointPrivateAccess" ;;
     Ok (if JS.truthy private then PASS else FAIL,
         JStr "Private endpoint access configuration")).

(** index.js:284-289 *)
Definition cluster_encryption_rule (env : Env) (clusterName : JSValue) : Rule :=
  mkRule "encryption"
    (cluster <-? eks_describeCluster env clusterName ;;
     c <-? JS.get cluster "cluster" ;;
     encryptionConfig <-? JS.get c "encryptionConfig" ;;
     Ok (if JS.truthy encryptionConfig then PASS else FAIL,
         JStr "Encryption configuration")).

(** index.js:292-297 *)
Definition logging_rule (env : Env) (clusterName : JSValue) : Rule :=
  mkRule "logging"
    (cluster <-? eks_describeCluster env clusterName ;;
     c <-? JS.get cluster "cluster" ;;
     logging <-? JS.get c "logging" ;;
     clusterLogging <-? JS.get logging "clusterLogging" ;;
     enabled <-? some clusterLogging "cluster.cluster.logging.clusterLogging.some"
                   (fun l => e <-? JS.get l "enabled" ;; Ok (JS.truthy e)) ;;
     Ok (if enabled then PASS else FAIL,
         JStr "Control plane logging configuration")).

(** The rules of a descriptor, in the order the check function of its kind
    evaluates them.  A role has one rule per inline policy: listing them can
    fail. *)
Definition rules_for (env : Env) (d : ResourceType * JSValue) : Result (list Rule) :=
  match fst d with
  | SecurityGroup => Ok [open_ports_rule (snd d)]
  | S3Bucket => Ok [public_access_rule env (snd d); bucket_encryption_rule env (snd d)]
  | IAMRole =>
      names <-? policy_names env (snd d) ;;
      Ok (map (policy_rule env (snd d)) names)
  | EKSCluster =>
      Ok [private_endpoint_rule env (snd d); cluster_encryption_rule env (snd d);
          logging_rule env (snd d)]
  end.

(** The verdicts of the rules that answer before the first one that
    throws, in rule order. *)
Fixpoint answered (rules : list Rule) : list Verdict :=
  match rules with
  | [] => []
  | r :: rest =>
      match evaluate r with
      | Ok a => mkVerdict (rule_name r) (fst a) (snd a) :: answered rest
      | Throw _ => []
      end
  end.

(** What the first rule that throws has thrown. *)
Fixpoint first_error (rules : list Rule) : option JSError :=
  match rules with
  | [] => None
  | r :: rest =>
      match evaluate r with
      | Ok _ => first_error rest
      | Throw e => Some e
      end
  end.

(** What the catch block of a kind adds to the entry for an error. *)
Definition closing_verdict (env : Env) (t : ResourceType) (error : option JSError)
    : list Verdict :=
  match error, error_verdict t with
  | Some e, Some nm => [mkVerdict nm ERROR (JStr (error_message env e))]
  | _, _ => []
  end.

(** The entry of a descriptor, rule by rule: the verdicts of its rules in
    order up to the first rule that throws, and then, in place of that rule
    and of those after it, the verdict of the kind's catch block. *)
Definition verdicts_by_rule (env : Env) (d : ResourceType * JSValue) : list Verdict :=
  match rules_for env d with
  | Ok rules => (answered rules ++ closing_verdict env (fst d) (first_error rules))%list
  | Throw e => closing_verdict env (fst d) (Some e)
  end.

Definition entry_by_rule (env : Env) (d : ResourceType * JSValue) (c : ResourceCheck)
    : Prop :=
  verdicts_of env d c /\ checks c = verdicts_by_rule env d.

(** C8 as the specification words it: the entries follow the descriptors
    and every verdict of an entry is named after a rule applicable to its
    descriptor. *)
Definition verdicts_belong_to_rules (env : Env) (d : ResourceType * JSValue)
    (c : ResourceCheck) : Prop :=
  resourceType c = fst d
  /\ exists rules,
       applicable_rules env d = Some rules
       /\ forall v, In v (checks c) -> In (name v) rules.

Definition report_follows_rules (env : Env) (resources : Resources) (w : World)
    : Prop :=
  forall r w',
    runSecurityChecks env resources w = (Ok r, w') ->
    Forall2 (verdicts_belong_to_rules env) (descriptors resources) (results_checks r).

Definition logs_bucket : JSValue := JObj [("Name", JStr "cloudsecdemo-logs")].

(** An account with something to say about every kind: buckets that block
    public ACLs, of which only cloudsecdemo-data has default encryption,
    roles with three inline policies, and the cluster of the scenario as the
    only cluster that can be described. *)
Definition audited_account : Env :=
  mkEnv access_denied
        (fun _ => Ok (JObj [("PublicAccessBlockConfiguration",
                             JObj [("BlockPublicAcls", JBool true)])]))
        (fun Bucket =>
           if JS.strict_eq_str Bucket "cloudsecdemo-data"
           then Ok (JObj [("ServerSideEncryptionConfiguration",
                           JObj [("Rules", JArr [JObj [("BucketKeyEnabled", JBool true)]])])])
           else Throw (ServiceError "ServerSideEncryptionConfigurationNotFoundError"
                         "The server side encryption configuration was not found"))
        (fun _ => Ok (JObj [("PolicyNames", JArr [JStr "read"; JStr "write"; JStr "admin"])]))
        (fun RoleName PolicyName => Ok (JObj [("PolicyDocument", wildcard_document)]))
        (fun name =>
           if JS.strict_eq_str name "cloudsecdemo-cluster" then Ok scenario_cluster
           else access_denied)
        (fun _ => Ok tt) (fun _ => Ok tt)
        v8_message.

Definition audited_batch : Resources :=
  mkResources [sg_open; sg_closed] [data_bucket; logs_bucket] [admin_role]
              [JStr "cloudsecdemo-cluster"; JStr "cloudsecdemo-staging"].

(** * Properties *)

Create HintDb oblivious.

Lemma oblivious_lift {A B} (r : Result B) : oblivious (@lift (Filling A) B r).
Proof. intros l w1 w2; split; reflexivity. Qed.

Lemma oblivious_ret {A B} (b : B) : oblivious (@ret (Filling A) B b).
Proof. intros l w1 w2; split; reflexivity. Qed.

Lemma oblivious_push {A} (a : A) : oblivious (push a).
Proof. intros l w1 w2; split; reflexivity. Qed.

Lemma oblivious_bind {A B C} (c : M (Filling A) B) (k : B -> M (Filling A) C) :
  oblivious c -> (forall b, oblivious (k b)) -> oblivious (bind c k).
Proof.
  intros Hc Hk l w1 w2. unfold bind.
  destruct (Hc l w1 w2) as [Hr Hl].
  destruct (c (l, w1)) as [r1 [l1 v1]], (c (l, w2)) as [r2 [l2 v2]].
  simpl in Hr, Hl. subst r2 l2.
  destruct r1 as [b|e]; [apply Hk | split; reflexivity].
Qed.

Lemma oblivious_try_catch {A B} (body : M (Filling A) B) handler :
  oblivious body -> (forall e, oblivious (handler e)) ->
  oblivious (try_catch body handler).
Proof.
  intros Hc Hk l w1 w2. unfold try_catch.
  destruct (Hc l w1 w2) as [Hr Hl].
  destruct (body (l, w1)) as [r1 [l1 v1]], (body (l, w2)) as [r2 [l2 v2]].
  simpl in Hr, Hl. subst r2 l2.
  destruct r1 as [b|e]; [split; reflexivity | apply Hk].
Qed.

Lemma oblivious_for_of {A} (l : list JSValue) (body : JSValue -> M (Filling A) unit) :
  (forall x, oblivious (body x)) -> oblivious (for_of l body).
Proof.
  intros Hb. induction l as [|x r IH]; simpl.
  - apply oblivious_ret.
  - apply oblivious_bind; [apply Hb | intros _; exact IH].
Qed.

Lemma oblivious_await {A B} (c : M World B) :
  oblivious_w c -> oblivious (@await A B c).
Proof.
  intros Hc l w1 w2. unfold await. specialize (Hc w1 w2).
  destruct (c w1), (c w2); simpl in *; auto.
Qed.

Lemma oblivious_w_console_error msg e : oblivious_w (console_error msg e).
Proof. intros w1 w2; reflexivity. Qed.

Lemma oblivious_w_lift {B} (r : Result B) : oblivious_w (lift r).
Proof. intros w1 w2; reflexivity. Qed.

Lemma oblivious_w_ret {B} (b : B) : oblivious_w (ret b).
Proof. intros w1 w2; reflexivity. Qed.

Lemma oblivious_w_bind {B C} (c : M World B) (k : B -> M World C) :
  oblivious_w c -> (forall b, oblivious_w (k b)) -> oblivious_w (bind c k).
Proof.
  intros Hc Hk w1 w2. unfold bind. specialize (Hc w1 w2).
  destruct (c w1) as [r1 v1], (c w2) as [r2 v2]. simpl in Hc. subst r2.
  destruct r1; [apply Hk | reflexivity].
Qed.

Lemma oblivious_w_filled {A} (c : M (Filling A) unit) :
  oblivious c -> oblivious_w (filled c).
Proof.
  intros Hc w1 w2. unfold filled.
  destruct (Hc [] w1 w2) as [Hr Hl].
  destruct (c ([], w1)) as [r1 [l1 v1]], (c ([], w2)) as [r2 [l2 v2]].
  simpl in Hr, Hl. subst r2 l2. destruct r1; reflexivity.
Qed.

#[export] Hint Resolve oblivious_lift oblivious_ret oblivious_push
  oblivious_await oblivious_w_console_error oblivious_w_lift oblivious_w_ret
  : oblivious.

Ltac oblivious :=
  repeat first
    [ progress intros
    | apply oblivious_w_bind
    | apply oblivious_w_filled
    | apply oblivious_bind
    | apply oblivious_try_catch
    | apply oblivious_for_of
    | solve [auto with oblivious] ].

Lemma checkSecurityGroup_oblivious sg : oblivious_w (checkSecurityGroup sg).
Proof. unfold checkSecurityGroup. oblivious. Qed.

Lemma checkS3Bucket_oblivious env bucket : oblivious_w (checkS3Bucket env bucket).
Proof. unfold checkS3Bucket. oblivious. Qed.

Lemma checkIAMRole_oblivious env role : oblivious_w (checkIAMRole env role).
Proof. unfold checkIAMRole. oblivious. Qed.

Lemma checkEKSCluster_oblivious env cluster : oblivious_w (checkEKSCluster env cluster).
Proof. unfold checkEKSCluster. oblivious. Qed.

Lemma check_of_oblivious env d : oblivious_w (check_of env d).
Proof.
  destruct d as [[] x]; unfold check_of; simpl;
    auto using checkSecurityGroup_oblivious, checkS3Bucket_oblivious,
      checkIAMRole_oblivious, checkEKSCluster_oblivious.
Qed.

Lemma check_of_result env d w : fst (check_of env d w) = check_result env d.
Proof. apply check_of_oblivious. Qed.

(** ** The run as a map over the batch *)

Lemma mapR_app {A B} (g : A -> Result B) (l1 l2 : list A) :
  mapR g (l1 ++ l2) =
  (a <-? mapR g l1 ;; b <-? mapR g l2 ;; Ok (a ++ b)%list).
Proof.
  induction l1 as [|x r IH]; simpl.
  - destruct (mapR g l2); reflexivity.
  - destruct (g x); simpl; [|reflexivity].
    rewrite IH. destruct (mapR g r); simpl; [|reflexivity].
    destruct (mapR g l2); reflexivity.
Qed.

Lemma mapR_map {A B C} (g : B -> Result C) (h : A -> B) (l : list A) :
  mapR g (map h l) = mapR (fun x => g (h x)) l.
Proof.
  induction l as [|x r IH]; simpl; [reflexivity|].
  rewrite IH. reflexivity.
Qed.

Lemma mapR_Forall2 {A B} (g : A -> Result B) (l : list A) (l' : list B) :
  mapR g l = Ok l' -> Forall2 (fun x y => g x = Ok y) l l'.
Proof.
  revert l'. induction l as [|x r IH]; simpl; intros l' H.
  - injection H as <-. constructor.
  - destruct (g x) eqn:Hx; simpl in H; [|discriminate].
    destruct (mapR g r); simpl in H; [|discriminate].
    injection H as <-. constructor; auto.
Qed.

Section Loop.

Variable f : JSValue -> M World ResourceCheck.
Variable g : JSValue -> Result ResourceCheck.
Hypothesis f_answers : forall x w, fst (f x w) = g x.

(** One loop of the run: [for (const x of l) results.checks.push(await f(x))]. *)
Lemma for_of_await_push (l : list JSValue) :
  collects (for_of l (fun x => c <- await (f x) ;; push c)) (mapR g l).
Proof.
  induction l as [|x r IH]; intros acc w; simpl.
  - exists w. rewrite app_nil_r. reflexivity.
  - pose proof (f_answers x w) as Hx.
    destruct (f x w) as [rx wx] eqn:E. simpl in Hx. subst rx.
    assert (step : forall rest : M (Filling ResourceCheck) unit,
               ((c <- await (f x) ;; push c) ;; rest) (acc, w)
               = match g x with
                 | Ok c => rest ((acc ++ [c])%list, wx)
                 | Throw e => (Throw e, (acc, wx))
                 end).
    { intros rest. unfold bind, await, push. rewrite E.
      destruct (g x); reflexivity. }
    rewrite step. clear step.
    destruct (g x) as [c|e]; simpl.
    + specialize (IH (acc ++ [c])%list wx).
      destruct (mapR g r) as [cs|e]; simpl.
      * destruct IH as [w' IH]. exists w'. rewrite IH, <- app_assoc. reflexivity.
      * exact IH.
    + eexists. reflexivity.
Qed.

End Loop.

Lemma collects_seq c1 c2 r1 r2 :
  collects c1 r1 -> collects c2 r2 ->
  collects (c1 ;; c2) (a <-? r1 ;; b <-? r2 ;; Ok (a ++ b)%list).
Proof.
  intros H1 H2 acc w. unfold bind. specialize (H1 acc w).
  destruct r1 as [a|e]; simpl.
  - destruct H1 as [w1 ->]. specialize (H2 (acc ++ a)%list w1).
    destruct r2 as [b|e]; simpl.
    + destruct H2 as [w2 ->]. exists w2. rewrite app_assoc. reflexivity.
    + exact H2.
  - destruct H1 as [st ->]. exists st. reflexivity.
Qed.

Lemma collects_filled c r w :
  collects c r -> fst (filled c w) = r.
Proof.
  intros H. unfold filled. specialize (H [] w).
  destruct r as [cs|e].
  - destruct H as [w' ->]. reflexivity.
  - destruct H as [[l w'] ->]. reflexivity.
Qed.

Lemma runSecurityChecks_result env resources w :
  fst (runSecurityChecks env resources w)
  = map_result (mkResults (clock w (ticks w)) (ENVIRONMENT w))
               (mapR (check_result env) (descriptors resources)).
Proof.
  unfold runSecurityChecks.
  match goal with |- context [filled ?c] => set (loops := c) end.
  assert (H : collects loops (mapR (check_result env) (descriptors resources))).
  { unfold descriptors. rewrite !mapR_app, !mapR_map.
    subst loops.
    repeat apply collects_seq; apply for_of_await_push; intros x w0.
    - apply (check_of_result env (SecurityGroup, x)).
    - apply (check_of_result env (S3Bucket, x)).
    - apply (check_of_result env (IAMRole, x)).
    - apply (check_of_result env (EKSCluster, x)). }
  unfold bind at 1. unfold now at 1. unfold bind at 1. unfold getenv at 1.
  unfold bind at 1.
  match goal with |- context [filled loops ?w1] =>
    pose proof (collects_filled loops _ w1 H) as F;
    destruct (filled loops w1) as [r w2]
  end.
  simpl in F. subst r.
  destruct (mapR (check_result env) (descriptors resources)); reflexivity.
Qed.



(** ** Which verdicts a check produces *)

Ltac break_match :=
  match goal with
  | |- context [match ?x with _ => _ end] =>
      lazymatch x with
      | context [match _ with _ => _ end] => fail
      | _ => destruct x eqn:?
      end
  | H : context [match ?x with _ => _ end] |- _ =>
      lazymatch x with
      | context [match _ with _ => _ end] => fail
      | _ => destruct x eqn:?
      end
  end.

Ltac run_block :=
  unfold filled, try_catch, bind, lift, ret, push, await, console_error in *;
  simpl in *.

Ltac order_closed :=
  simpl; split; [reflexivity | split; [reflexivity|]];
  first [ left; reflexivity
        | right; exists 0%nat; eexists; split; [lia | split; reflexivity]
        | right; exists 1%nat; eexists; split; [lia | split; reflexivity]
        | right; exists 2%nat; eexists; split; [lia | split; reflexivity] ].

Lemma checkSecurityGroup_verdicts sg w c w' :
  checkSecurityGroup sg w = (Ok c, w') ->
  forall env, verdicts_of env (SecurityGroup, sg) c.
Proof.
  unfold checkSecurityGroup, verdicts_of, id_of, applicable_rules, error_verdict.
  run_block. intros H env.
  repeat break_match; try discriminate;
    injection H as <- _; order_closed.
Qed.

Lemma checkS3Bucket_verdicts env bucket w c w' :
  checkS3Bucket env bucket w = (Ok c, w') ->
  verdicts_of env (S3Bucket, bucket) c.
Proof.
  unfold checkS3Bucket, verdicts_of, id_of, applicable_rules, error_verdict.
  run_block. intros H.
  repeat break_match; try discriminate;
    injection H as <- _; order_closed.
Qed.

Lemma checkEKSCluster_verdicts env cluster w c w' :
  checkEKSCluster env cluster w = (Ok c, w') ->
  verdicts_of env (EKSCluster, cluster) c.
Proof.
  unfold checkEKSCluster, verdicts_of, id_of, applicable_rules, error_verdict.
  run_block. intros H.
  repeat first
    [ match type of H with
      | context [some ?a ?b ?f] => destruct (some a b f) eqn:?
      end
    | break_match ]; try discriminate;
    injection H as <- _; order_closed.
Qed.

Section PolicyLoop.

Variable body : JSValue -> M (Filling Verdict) unit.
Variable verdict_name : JSValue -> string.

(** An iteration pushes one verdict when it ends normally and none when it
    throws. *)
Hypothesis body_pushes : forall x acc w,
  match body x (acc, w) with
  | (Ok _, (acc', _)) => map name acc' = (map name acc ++ [verdict_name x])%list
  | (Throw _, (acc', _)) => acc' = acc
  end.

Lemma for_of_names (l : list JSValue) (acc : list Verdict) (w : World) :
  match for_of l body (acc, w) with
  | (Ok _, (acc', _)) =>
      map name acc' = (map name acc ++ map verdict_name l)%list
  | (Throw _, (acc', _)) =>
      exists k, (k < List.length l)%nat
                /\ map name acc' = (map name acc ++ firstn k (map verdict_name l))%list
  end.
Proof.
  revert acc w. induction l as [|x r IH]; intros acc w; simpl.
  - rewrite app_nil_r. reflexivity.
  - unfold bind. pose proof (body_pushes x acc w) as Hx.
    destruct (body x (acc, w)) as [[[]|e] [acc1 w1]].
    + specialize (IH acc1 w1).
      destruct (for_of r body (acc1, w1)) as [[[]|e] [acc2 w2]].
      * rewrite IH, Hx, <- app_assoc. reflexivity.
      * destruct IH as [k [Hk IH]]. exists (S k). split; [lia|].
        rewrite IH, Hx, <- app_assoc. reflexivity.
    + subst acc1. exists 0%nat. split; [lia|]. simpl. rewrite app_nil_r. reflexivity.
Qed.

End PolicyLoop.

Lemma checkIAMRole_verdicts env role w c w' :
  checkIAMRole env role w = (Ok c, w') ->
  verdicts_of env (IAMRole, role) c.
Proof.
  unfold checkIAMRole, verdicts_of, id_of, applicable_rules, error_verdict,
    policy_names.
  simpl fst; simpl snd. intros H.
  match type of H with context [for_of _ ?b] => set (B := b) in * end.
  assert (HB : forall x acc w0,
             match B x (acc, w0) with
             | (Ok _, (acc', _)) =>
                 map name acc' = (map name acc ++ [policy_verdict_name x])%list
             | (Throw _, (acc', _)) => acc' = acc
             end).
  { intros x acc w0. subst B. run_block.
    repeat break_match; try reflexivity;
      rewrite map_app; reflexivity. }
  pose proof (for_of_names B policy_verdict_name HB) as L.
  run_block. unfold rbind.
  repeat break_match; try discriminate;
    injection H as <- _; simpl; (split; [reflexivity | split; [reflexivity|]]).
  - match goal with E : for_of ?l B _ = _ |- _ =>
      specialize (L l [] w); rewrite E in L end.
    left. exact L.
  - match goal with E : for_of ?l B _ = _ |- _ =>
      specialize (L l [] w); rewrite E in L end.
    destruct L as [k [Hk L]]. right. exists k, "role-check".
    rewrite length_map. split; [exact Hk | split; [reflexivity|]].
    rewrite map_app, L. reflexivity.
  - eexists; split; reflexivity.
  - eexists; split; reflexivity.
  - eexists; split; reflexivity.
Qed.

Lemma check_of_verdicts env d w c w' :
  check_of env d w = (Ok c, w') -> verdicts_of env d c.
Proof.
  destruct d as [[] x]; unfold check_of; simpl; intros H.
  - eapply checkSecurityGroup_verdicts; eassumption.
  - eapply checkS3Bucket_verdicts; eassumption.
  - eapply checkIAMRole_verdicts; eassumption.
  - eapply checkEKSCluster_verdicts; eassumption.
Qed.

Lemma check_result_verdicts env d c :
  check_result env d = Ok c -> verdicts_of env d c.
Proof.
  unfold check_result. intros H.
  destruct (check_of env d blank_world) as [r w'] eqn:E. simpl in H. subst r.
  eapply check_of_verdicts; eassumption.
Qed.

(** ** The entry of a descriptor, rule by rule *)

Lemma checkSecurityGroup_by_rule sg w c w' :
  checkSecurityGroup sg w = (Ok c, w') ->
  forall env, checks c = verdicts_by_rule env (SecurityGroup, sg).
Proof.
  unfold checkSecurityGroup, verdicts_by_rule, rules_for, closing_verdict,
    open_ports_rule.
  run_block. unfold rbind. intros H env.
  repeat break_match; try discriminate; injection H as <- _; reflexivity.
Qed.

Lemma checkS3Bucket_by_rule env bucket w c w' :
  checkS3Bucket env bucket w = (Ok c, w') ->
  checks c = verdicts_by_rule env (S3Bucket, bucket).
Proof.
  unfold checkS3Bucket, verdicts_by_rule, rules_for, closing_verdict,
    public_access_rule, bucket_encryption_rule.
  run_block. unfold rbind. intros H.
  repeat break_match; try discriminate; injection H as <- _; reflexivity.
Qed.

Lemma checkEKSCluster_by_rule env cluster w c w' :
  checkEKSCluster env cluster w = (Ok c, w') ->
  checks c = verdicts_by_rule env (EKSCluster, cluster).
Proof.
  unfold checkEKSCluster, verdicts_by_rule, rules_for, closing_verdict,
    private_endpoint_rule, cluster_encryption_rule, logging_rule.
  run_block. unfold rbind. intros H.
  repeat first
    [ match type of H with
      | context [some ?a ?b ?f] => destruct (some a b f) eqn:?
      end
    | break_match ]; try discriminate;
    injection H as <- _; reflexivity.
Qed.

Section RuleLoop.

Variable body : JSValue -> M (Filling Verdict) unit.
Variable rule : JSValue -> Rule.

(** A turn of the loop pushes the verdict of its rule, or throws what the
    rule throws and pushes nothing. *)
Hypothesis body_evaluates : forall x acc w,
  body x (acc, w)
  = match evaluate (rule x) with
    | Ok a => (Ok tt, ((acc ++ [mkVerdict (rule_name (rule x)) (fst a) (snd a)])%list, w))
    | Throw e => (Throw e, (acc, w))
    end.

Lemma for_of_rules (l : list JSValue) (acc : list Verdict) (w : World) :
  for_of l body (acc, w)
  = (match first_error (map rule l) with
     | None => Ok tt
     | Some e => Throw e
     end, ((acc ++ answered (map rule l))%list, w)).
Proof.
  revert acc. induction l as [|x r IH]; intros acc; simpl.
  - rewrite app_nil_r. reflexivity.
  - unfold bind. rewrite body_evaluates.
    destruct (evaluate (rule x)) as [a|e].
    + rewrite IH, <- app_assoc. reflexivity.
    + rewrite app_nil_r. reflexivity.
Qed.

End RuleLoop.

Lemma checkIAMRole_by_rule env role w c w' :
  checkIAMRole env role w = (Ok c, w') ->
  checks c = verdicts_by_rule env (IAMRole, role).
Proof.
  unfold checkIAMRole, verdicts_by_rule, rules_for, closing_verdict, policy_names.
  simpl fst; simpl snd. intros H.
  match type of H with context [for_of _ ?b] => set (B := b) in * end.
  assert (HB : forall x acc w0,
             B x (acc, w0)
             = match evaluate (policy_rule env role x) with
               | Ok a => (Ok tt, ((acc ++ [mkVerdict (rule_name (policy_rule env role x))
                                             (fst a) (snd a)])%list, w0))
               | Throw e => (Throw e, (acc, w0))
               end).
  { intros x acc w0. subst B. unfold policy_rule, policy_wildcard, policy_verdict_name.
    run_block. unfold rbind.
    repeat break_match; reflexivity. }
  pose proof (for_of_rules B (policy_rule env role) HB) as L.
  run_block. unfold rbind.
  destruct (JS.get role "RoleName") as [RoleName|]; [|discriminate H].
  destruct (iam_listRolePolicies env RoleName) as [policies|];
    [|injection H as <- _; reflexivity].
  destruct (JS.get policies "PolicyNames") as [names|];
    [|injection H as <- _; reflexivity].
  destruct (JS.iterate names "policies.PolicyNames") as [l|];
    [|injection H as <- _; reflexivity].
  rewrite L in H.
  destruct (first_error (map (policy_rule env role) l));
    injection H as <- _; simpl; rewrite ?app_nil_r; reflexivity.
Qed.

Lemma check_of_by_rule env d w c w' :
  check_of env d w = (Ok c, w') -> checks c = verdicts_by_rule env d.
Proof.
  destruct d as [[] x]; unfold check_of; simpl; intros H.
  - eapply checkSecurityGroup_by_rule; eassumption.
  - eapply checkS3Bucket_by_rule; eassumption.
  - eapply checkIAMRole_by_rule; eassumption.
  - eapply checkEKSCluster_by_rule; eassumption.
Qed.

Lemma check_result_by_rule env d c :
  check_result env d = Ok c -> entry_by_rule env d c.
Proof.
  unfold check_result. intros H.
  destruct (check_of env d blank_world) as [r w'] eqn:E. simpl in H. subst r.
  split; [eapply check_of_verdicts | eapply check_of_by_rule]; eassumption.
Qed.

Lemma rules_for_names env d rules :
  rules_for env d = Ok rules -> applicable_rules env d = Some (map rule_name rules).
Proof.
  destruct d as [[] x]; unfold rules_for, applicable_rules; simpl;
    try (intros H; injection H as <-; reflexivity).
  destruct (policy_names env x) as [names|]; simpl; [|discriminate].
  intros H. injection H as <-. rewrite map_map. reflexivity.
Qed.

Lemma answered_In (rules : list Rule) (v : Verdict) :
  In v (answered rules) ->
  exists rule,
    In rule rules /\ name v = rule_name rule
    /\ evaluate rule = Ok (status v, details v).
Proof.
  induction rules as [|r rest IH]; simpl; [intros []|].
  destruct (evaluate r) as [[s d]|e] eqn:E; simpl; [|intros []].
  intros [<-|Hv].
  - exists r. simpl. auto.
  - destruct (IH Hv) as [rule [Hin Hrule]]. exists rule. auto.
Qed.

Lemma closing_verdict_In env t error v :
  In v (closing_verdict env t error) ->
  status v = ERROR /\ error_verdict t = Some (name v).
Proof.
  unfold closing_verdict. destruct error as [e|]; [|intros []].
  destruct (error_verdict t) as [nm|]; [|intros []].
  intros [<-|[]]. split; reflexivity.
Qed.

(** ** Checks that cannot throw *)

Lemma get_of_non_nullish v k :
  JS.nullish v = false -> exists x, JS.get v k = Ok x.
Proof. destruct v; simpl; intros H; try discriminate; eexists; reflexivity. Qed.

Lemma array_some_total (f : JSValue -> Result bool) (l : list JSValue) :
  Forall (fun x => exists b, f x = Ok b) l ->
  exists b, array_some f l = Ok b
            /\ (b = true <-> exists x, In x l /\ f x = Ok true).
Proof.
  induction 1 as [|x r [b Hx] _ [b' [IH1 IH2]]]; simpl.
  - exists false. split; [reflexivity|].
    split; [discriminate | intros [x [[] _]]].
  - rewrite Hx. destruct b.
    + exists true. split; [reflexivity|].
      split; [|reflexivity]. intros _. exists x. auto.
    + exists b'. split; [exact IH1|]. rewrite IH2. split.
      * intros [y [Hy Hf]]. exists y. auto.
      * intros [y [[<-|Hy] Hf]]; [congruence | exists y; auto].
Qed.

Lemma strict_eq_str_true v s : JS.strict_eq_str v s = true <-> v = JStr s.
Proof.
  destruct v; simpl; try (split; [discriminate | intros H; discriminate H]).
  rewrite String.eqb_eq. split; [intros ->; reflexivity | intros H; injection H; auto].
Qed.

Lemma ranges_some (ranges : list JSValue) :
  forallb (fun range => negb (JS.nullish range)) ranges = true ->
  exists b,
    array_some (fun range => cidr <-? JS.get range "CidrIp" ;;
                             Ok (JS.strict_eq_str cidr "0.0.0.0/0")) ranges = Ok b
    /\ (b = true <-> exists range, In range ranges
                                   /\ JS.get range "CidrIp" = Ok (JStr "0.0.0.0/0")).
Proof.
  intros Hwf. rewrite forallb_forall in Hwf.
  edestruct array_some_total as [b [Hb Hiff]]; [|exists b; split; [exact Hb|]].
  - apply Forall_forall. intros x Hx. specialize (Hwf x Hx).
    apply negb_true_iff in Hwf.
    destruct (get_of_non_nullish x "CidrIp" Hwf) as [c ->]. simpl. eauto.
  - rewrite Hiff. split; intros [x [Hin Hx]]; exists x; (split; [exact Hin|]).
    + specialize (Hwf x Hin). apply negb_true_iff in Hwf.
      destruct (get_of_non_nullish x "CidrIp" Hwf) as [c Hc].
      rewrite Hc in *. simpl in Hx. injection Hx as Hx.
      apply strict_eq_str_true in Hx. congruence.
    + rewrite Hx. reflexivity.
Qed.

Lemma hasOpenPorts_spec sg :
  wf_SecurityGroup sg = true ->
  exists b, hasOpenPorts sg = Ok b /\ (b = true <-> open_to_world sg).
Proof.
  unfold wf_SecurityGroup, hasOpenPorts, open_to_world.
  destruct (JS.get sg "IpPermissions") as [[| | | | |perms|]|] eqn:Hp;
    try discriminate.
  intros Hwf. rewrite forallb_forall in Hwf. simpl.
  set (f := fun perm : JSValue => _).
  assert (Hf : forall perm, In perm perms ->
             exists b, f perm = Ok b
                       /\ (b = true <-> exists ranges range,
                              JS.get perm "IpRanges" = Ok (JArr ranges)
                              /\ In range ranges
                              /\ JS.get range "CidrIp" = Ok (JStr "0.0.0.0/0"))).
  { intros perm Hin. specialize (Hwf perm Hin). unfold wf_IpPermission in Hwf.
    subst f. simpl.
    destruct (JS.get perm "IpRanges") as [[| | | | |ranges|]|]; try discriminate.
    simpl. destruct (ranges_some ranges Hwf) as [b [Hb Hiff]].
    exists b. split; [exact Hb|]. rewrite Hiff. split.
    - intros [range [H1 H2]]. exists ranges, range. auto.
    - intros [ranges' [range [E [H1 H2]]]]. injection E as <-. eauto. }
  edestruct (array_some_total f perms) as [b [Hb Hiff]].
  { apply Forall_forall. intros perm Hin.
    destruct (Hf perm Hin) as [b [Hb _]]. eauto. }
  exists b. split; [exact Hb|]. rewrite Hiff. split.
  - intros [perm [Hin Hx]]. destruct (Hf perm Hin) as [b' [Hb' Hiff']].
    assert (b' = true) by congruence.
    apply Hiff' in H. destruct H as [ranges [range [H1 [H2 H3]]]].
    exists perms, perm, ranges, range. auto.
  - intros [perms' [perm [ranges [range [E [Hin [H1 [H2 H3]]]]]]]].
    injection E as <-. exists perm. split; [exact Hin|].
    destruct (Hf perm Hin) as [b' [Hb' Hiff']].
    rewrite Hb'. f_equal. apply Hiff'. eauto.
Qed.

Lemma wf_SecurityGroup_non_nullish sg :
  wf_SecurityGroup sg = true -> JS.nullish sg = false.
Proof. destruct sg; simpl; intros H; try discriminate; reflexivity. Qed.

Lemma checkS3Bucket_total env bucket w :
  JS.nullish bucket = false ->
  exists c w', checkS3Bucket env bucket w = (Ok c, w').
Proof.
  intros Hn. destruct (get_of_non_nullish bucket "Name" Hn) as [id Hid].
  unfold checkS3Bucket. run_block. rewrite Hid.
  repeat break_match; eauto.
Qed.

Lemma checkIAMRole_total env role w :
  JS.nullish role = false ->
  exists c w', checkIAMRole env role w = (Ok c, w').
Proof.
  intros Hn. destruct (get_of_non_nullish role "RoleName" Hn) as [id Hid].
  unfold checkIAMRole.
  match goal with |- context [for_of _ ?b] => set (B := b) end.
  run_block. rewrite Hid.
  repeat break_match; eauto.
Qed.

Lemma checkEKSCluster_total env cluster w :
  exists c w', checkEKSCluster env cluster w = (Ok c, w').
Proof.
  unfold checkEKSCluster.
  match goal with |- context [some _ _ ?f] => set (enabled := f) end.
  run_block.
  repeat break_match; eauto.
Qed.

Lemma checkSecurityGroup_total sg w :
  wf_SecurityGroup sg = true ->
  exists c w', checkSecurityGroup sg w = (Ok c, w').
Proof.
  intros Hwf.
  destruct (get_of_non_nullish sg "GroupId" (wf_SecurityGroup_non_nullish sg Hwf))
    as [id Hid].
  destruct (hasOpenPorts_spec sg Hwf) as [b [Hb _]].
  unfold checkSecurityGroup. run_block. rewrite Hid, Hb. eauto.
Qed.

Lemma check_result_total env d :
  wf_descriptor d = true -> exists c, check_result env d = Ok c.
Proof.
  unfold check_result, check_of, wf_descriptor.
  destruct d as [[] x]; simpl; intros Hwf.
  - destruct (checkSecurityGroup_total x blank_world Hwf) as [c [w' ->]]. exists c. reflexivity.
  - apply negb_true_iff in Hwf.
    destruct (checkS3Bucket_total env x blank_world Hwf) as [c [w' ->]]. exists c. reflexivity.
  - apply negb_true_iff in Hwf.
    destruct (checkIAMRole_total env x blank_world Hwf) as [c [w' ->]]. exists c. reflexivity.
  - destruct (checkEKSCluster_total env x blank_world) as [c [w' ->]]. exists c. reflexivity.
Qed.

Lemma mapR_total {A B} (g : A -> Result B) (l : list A) :
  Forall (fun x => exists y, g x = Ok y) l -> exists l', mapR g l = Ok l'.
Proof.
  induction 1 as [|x r [y Hy] _ [l' IH]]; simpl.
  - eauto.
  - rewrite Hy, IH. simpl. eauto.
Qed.

Lemma wf_batch_descriptors resources :
  wf_batch resources = true ->
  Forall (fun d => wf_descriptor d = true) (descriptors resources).
Proof.
  unfold wf_batch, descriptors. rewrite !andb_true_iff, !forallb_forall.
  intros [[Hs Hb] Hr].
  repeat (apply Forall_app; split); apply Forall_forall; intros d Hd;
    apply in_map_iff in Hd; destruct Hd as [x [<- Hx]];
    unfold wf_descriptor; simpl; auto.
Qed.

Lemma runSecurityChecks_total env resources w :
  wf_batch resources = true ->
  exists r w', runSecurityChecks env resources w = (Ok r, w').
Proof.
  intros Hwf. pose proof (runSecurityChecks_result env resources w) as H.
  destruct (mapR_total (check_result env) (descriptors resources)) as [cs Hcs].
  { eapply Forall_impl; [|apply wf_batch_descriptors; exact Hwf].
    intros d. apply check_result_total. }
  rewrite Hcs in H. simpl in H.
  destruct (runSecurityChecks env resources w) as [r w']. simpl in H. subst r. eauto.
Qed.

Lemma runSecurityChecks_checks env resources w r w' :
  runSecurityChecks env resources w = (Ok r, w') ->
  mapR (check_result env) (descriptors resources) = Ok (results_checks r).
Proof.
  intros E. pose proof (runSecurityChecks_result env resources w) as H.
  rewrite E in H. simpl in H.
  destruct (mapR (check_result env) (descriptors resources)); simpl in H;
    [injection H as ->; reflexivity | discriminate].
Qed.

Lemma Forall2_In_r {A B} (P : A -> B -> Prop) l l' y :
  Forall2 P l l' -> In y l' -> exists x, In x l /\ P x y.
Proof.
  induction 1 as [|a b r r' Hab _ IH]; simpl; [intros []|].
  intros [<-|Hy]; [eauto|]. destruct (IH Hy) as [x [Hx Hp]]. eauto.
Qed.

Lemma Forall2_combine {A B} (P : A -> B -> Prop) l l' x y :
  Forall2 P l l' -> In (x, y) (combine l l') -> P x y.
Proof.
  induction 1 as [|a b r r' Hab _ IH]; simpl; [intros []|].
  intros [E|H]; [injection E as <- <-; exact Hab | auto].
Qed.

Section LoopWithoutThrow.

Variable body : JSValue -> M (Filling Verdict) unit.
Variable P : JSValue -> Verdict -> Prop.
Variable l : list JSValue.

(** Every iteration over [l] ends normally with one verdict pushed and the
    world as it was. *)
Hypothesis body_ok : forall x, In x l -> forall acc w,
  exists v, body x (acc, w) = (Ok tt, ((acc ++ [v])%list, w)) /\ P x v.

Lemma for_of_all_pushed (acc : list Verdict) (w : World) :
  exists vs, for_of l body (acc, w) = (Ok tt, ((acc ++ vs)%list, w))
             /\ Forall2 P l vs.
Proof.
  revert acc. induction l as [|x r IH]; intros acc; simpl.
  - exists []. rewrite app_nil_r. split; [reflexivity | constructor].
  - destruct (body_ok x (or_introl eq_refl) acc w) as [v [Hv HP]].
    destruct (IH (fun y Hy => body_ok y (or_intror Hy)) (acc ++ [v])%list)
      as [vs [Hvs HF]].
    exists (v :: vs). unfold bind. rewrite Hv, Hvs, <- app_assoc.
    split; [reflexivity | constructor; assumption].
Qed.

End LoopWithoutThrow.

Lemma stringify_defined doc :
  doc <> JUndefined -> exists text, JS.stringify doc = Some text.
Proof.
  unfold JS.stringify. destruct doc as [| |[]| | | |]; simpl; intros H; eauto.
  congruence.
Qed.

Lemma failures_fold (cs : list ResourceCheck) (n : nat) :
  fold_left
    (fun count check =>
       count + List.length (filter (fun c => Status_eqb (status c) FAIL) (checks check)))
    cs n
  = (n + count_FAIL (flat_map checks cs))%nat.
Proof.
  assert (Hc : forall vs,
             List.length (filter (fun c => Status_eqb (status c) FAIL) vs)
             = count_FAIL vs).
  { induction vs as [|v r IH]; simpl; [reflexivity|].
    destruct (status v); simpl; rewrite IH; reflexivity. }
  assert (Happ : forall a b, count_FAIL (a ++ b) = (count_FAIL a + count_FAIL b)%nat).
  { induction a as [|v r IH]; intros b; simpl; [reflexivity|].
    destruct (status v); rewrite IH; reflexivity. }
  revert n. induction cs as [|c r IH]; intros n; simpl.
  - lia.
  - rewrite IH, Hc, Happ. lia.
Qed.

Lemma mapR_split {A B} (g : A -> Result B) l1 x l2 cs :
  mapR g (l1 ++ x :: l2) = Ok cs ->
  exists cs1 c cs2,
    mapR g l1 = Ok cs1 /\ g x = Ok c /\ mapR g l2 = Ok cs2
    /\ cs = (cs1 ++ c :: cs2)%list
    /\ List.length cs1 = List.length l1
    /\ mapR g (l1 ++ l2) = Ok (cs1 ++ cs2)%list.
Proof.
  rewrite !mapR_app. simpl.
  destruct (mapR g l1) as [cs1|] eqn:E1; simpl; [|discriminate].
  destruct (g x) as [c|]; simpl; [|discriminate].
  destruct (mapR g l2) as [cs2|]; simpl; [|discriminate].
  intros H. injection H as <-.
  exists cs1, c, cs2. repeat split; try reflexivity.
  apply mapR_Forall2 in E1. symmetry. eapply Forall2_length. exact E1.
Qed.

(** ** The serialized form of a policy document *)

Lemma lex_run_app q a b :
  lex_run q (a ++ b) = match lex_run q a with
                       | Some q' => lex_run q' b
                       | None => None
                       end.
Proof.
  revert q. induction a as [|c r IH]; intros q; simpl; [reflexivity|].
  destruct (lex_step q c); [apply IH | reflexivity].
Qed.

Lemma lex_run_quote_char c : lex_run Inside (JS.quote_char c) = Some Inside.
Proof.
  destruct c as [[] [] [] [] [] [] [] []]; reflexivity.
Qed.

Lemma lex_run_quote_body s : lex_run Inside (JS.quote_body s) = Some Inside.
Proof.
  induction s as [|c r IH]; simpl; [reflexivity|].
  rewrite lex_run_app, lex_run_quote_char. exact IH.
Qed.

Lemma lex_run_quote s : lex_run Outside (JS.quote s) = Some Outside.
Proof.
  unfold JS.quote. simpl. rewrite lex_run_app, lex_run_quote_body. reflexivity.
Qed.

Lemma lex_run_uint d :
  lex_run Outside (NilEmpty.string_of_uint d) = Some Outside.
Proof. induction d; simpl; auto. Qed.

Lemma lex_run_number z : lex_run Outside (JS.Z_to_string z) = Some Outside.
Proof.
  unfold JS.Z_to_string, NilZero.string_of_int, NilZero.string_of_uint.
  destruct (Z.to_int z) as [d|d]; destruct d; simpl;
    try reflexivity; apply lex_run_uint.
Qed.

Lemma lex_run_join (parts : list string) :
  Forall (fun part => lex_run Outside part = Some Outside) parts ->
  lex_run Outside (JS.join "," parts) = Some Outside.
Proof.
  induction 1 as [|x r Hx Hr IH]; simpl; [reflexivity|].
  destruct r as [|y r']; [exact Hx|].
  rewrite lex_run_app, Hx. simpl. simpl in IH. exact IH.
Qed.

Lemma lex_run_wrap opening closing parts :
  lex_run Outside opening = Some Outside ->
  lex_run Outside closing = Some Outside ->
  Forall (fun part => lex_run Outside part = Some Outside) parts ->
  lex_run Outside (JS.wrap opening closing EmptyString EmptyString parts)
  = Some Outside.
Proof.
  intros Ho Hc Hp. unfold JS.wrap.
  destruct parts as [|x r].
  - rewrite lex_run_app, Ho. exact Hc.
  - simpl JS.is_empty. cbv iota.
    rewrite lex_run_app, Ho, lex_run_app, (lex_run_join _ Hp). exact Hc.
Qed.

(** Compact JSON text reads from outside a string back to outside a string,
    with no space and no star outside strings. *)
Lemma lex_run_serialize v :
  forall text, JS.serialize EmptyString EmptyString v = Some text ->
               lex_run Outside text = Some Outside.
Proof.
  induction v as [| |b|z|s|l IH|l IH] using JSValue_nested_ind;
    intros text H; simpl in H; try discriminate.
  - injection H as <-. reflexivity.
  - destruct b; injection H as <-; reflexivity.
  - injection H as <-. apply lex_run_number.
  - injection H as <-. apply lex_run_quote.
  - injection H as <-. apply lex_run_wrap; try reflexivity.
    induction IH as [|x r Hx _ IHr]; simpl; constructor; [|exact IHr].
    destruct (JS.serialize EmptyString EmptyString x) as [t|]; [auto | reflexivity].
  - injection H as <-. apply lex_run_wrap; try reflexivity.
    induction IH as [|[k x] r Hx _ IHr]; simpl; [constructor|].
    simpl in Hx.
    destruct (JS.serialize EmptyString EmptyString x) as [t|]; [|exact IHr].
    constructor; [|exact IHr].
    change (lex_run Outside (JS.quote k ++ String ":" t) = Some Outside).
    rewrite lex_run_app, lex_run_quote. simpl. auto.
Qed.

Lemma lex_run_space_quote_star q rest :
  lex_run q (space_quote_star ++ rest) = None.
Proof. destruct q; reflexivity. Qed.

Lemma prefix_split a s :
  String.prefix a s = true -> exists rest, s = a ++ rest.
Proof.
  revert s. induction a as [|c r IH]; intros s H.
  - exists s. reflexivity.
  - destruct s as [|c' s']; simpl in H; [discriminate|].
    destruct (ascii_dec c c') as [<-|]; [|discriminate].
    destruct (IH s' H) as [rest ->]. exists rest. reflexivity.
Qed.

Lemma prefix_empty s : String.prefix EmptyString s = true.
Proof. destruct s; reflexivity. Qed.

Lemma includes_unfold s b :
  JS.includes s b
  = if String.prefix b s then true
    else match s with
         | EmptyString => false
         | String _ r => JS.includes r b
         end.
Proof. destruct s; reflexivity. Qed.

Lemma includes_readable s :
  forall q, lex_run q s <> None -> JS.includes s space_quote_star = false.
Proof.
  induction s as [|c r IH]; intros q H.
  - reflexivity.
  - rewrite includes_unfold.
    destruct (String.prefix space_quote_star (String c r)) eqn:Hp.
    + apply prefix_split in Hp. destruct Hp as [rest Hp].
      rewrite Hp, lex_run_space_quote_star in H. congruence.
    + simpl in H. destruct (lex_step q c) as [q'|]; [|congruence].
      apply (IH q' H).
Qed.

Lemma prefix_app_l a b s :
  String.prefix (a ++ b) s = true -> String.prefix a s = true.
Proof.
  revert s. induction a as [|c r IH]; intros s H.
  - apply prefix_empty.
  - destruct s as [|c' s']; simpl in *; [discriminate|].
    destruct (ascii_dec c c'); [auto | discriminate].
Qed.

Lemma includes_app_l s a b :
  JS.includes s (a ++ b) = true -> JS.includes s a = true.
Proof.
  induction s as [|c r IH].
  - rewrite (includes_unfold EmptyString (a ++ b)), (includes_unfold EmptyString a).
    destruct (String.prefix (a ++ b) EmptyString) eqn:Hp; [|discriminate].
    rewrite (prefix_app_l _ _ _ Hp). reflexivity.
  - rewrite (includes_unfold (String c r) (a ++ b)), (includes_unfold (String c r) a).
    destruct (String.prefix (a ++ b) (String c r)) eqn:Hp.
    + rewrite (prefix_app_l _ _ _ Hp). reflexivity.
    + intros H. rewrite (IH H). destruct (String.prefix a (String c r)); reflexivity.
Qed.

Lemma includes_cons c s b :
  JS.includes s b = true -> JS.includes (String c s) b = true.
Proof.
  intros H. rewrite includes_unfold.
  destruct (String.prefix b (String c s)); [reflexivity | exact H].
Qed.

Lemma prefix_app_r a b s :
  String.prefix (a ++ b) s = true -> JS.includes s b = true.
Proof.
  revert s. induction a as [|c r IH]; intros s H.
  - simpl in H. rewrite includes_unfold, H. reflexivity.
  - destruct s as [|c' s']; simpl in H; [discriminate|].
    destruct (ascii_dec c c'); [|discriminate].
    apply includes_cons, IH, H.
Qed.

Lemma includes_app_r s a b :
  JS.includes s (a ++ b) = true -> JS.includes s b = true.
Proof.
  induction s as [|c r IH].
  - rewrite (includes_unfold EmptyString (a ++ b)).
    destruct (String.prefix (a ++ b) EmptyString) eqn:Hp; [|discriminate].
    intros _. apply (prefix_app_r _ _ _ Hp).
  - rewrite (includes_unfold (String c r) (a ++ b)).
    destruct (String.prefix (a ++ b) (String c r)) eqn:Hp.
    + intros _. apply (prefix_app_r _ _ _ Hp).
    + intros H. apply (includes_cons c), IH, H.
Qed.

(** No serialized document contains the text the role check looks for. *)
Lemma stringify_without_pattern doc text :
  JS.stringify doc = Some text -> JS.includes text wildcard_pattern = false.
Proof.
  intros H. apply lex_run_serialize in H.
  destruct (JS.includes text wildcard_pattern) eqn:Hi; [|reflexivity].
  change wildcard_pattern
    with ((JS.dquote ++ "Action" ++ JS.dquote ++ ":")
          ++ (space_quote_star ++ JS.dquote)) in Hi.
  apply includes_app_r, includes_app_l in Hi.
  rewrite (includes_readable text Outside) in Hi; congruence.
Qed.

Lemma hasWildcardPermissions_never doc : hasWildcardPermissions doc <> Ok true.
Proof.
  unfold hasWildcardPermissions.
  destruct (JS.stringify doc) as [text|] eqn:H; [|discriminate].
  rewrite (stringify_without_pattern doc text H). discriminate.
Qed.

(** ** The specification, point by point *)

(** C1.  The run does not recover an evaluation error of a security group:
    for a group without [IpPermissions] the TypeError of
    [sg.IpPermissions.some] leaves [runSecurityChecks], whatever the services
    answer; for a group with a permission without [IpRanges] the TypeError of
    [perm.IpRanges.some] does, and the handler ends the invocation with it. *)
Theorem runSecurityChecks_throws_for_security_group (env : Env) (w : World) :
  fst (runSecurityChecks env (mkResources [sg_without_permissions] [] [] []) w)
  = Throw (TypeError (ReadOfNullish JUndefined "some"))
  /\ fst (runSecurityChecks env (mkResources [sg_peer_only] [] [] []) w)
     = Throw (TypeError (ReadOfNullish JUndefined "some"))
  /\ fst (handler peer_account w)
     = Throw (TypeError (ReadOfNullish JUndefined "some")).
Proof. repeat split; reflexivity. Qed.

(** C2 does not hold as the specification words it.  For a bucket whose
    public access block answer has no [PublicAccessBlockConfiguration] and
    whose encryption answer is complete, the check leaves neither an ERROR
    verdict named public-access nor any encryption verdict: its only verdict
    is bucket-check. *)
Lemma public_access_error_not_isolated :
  fst (checkS3Bucket bucket_account data_bucket fresh_world)
  = Ok (mkResourceCheck S3Bucket (JStr "cloudsecdemo-data")
          [mkVerdict "bucket-check" ERROR
             (JStr "Cannot read properties of undefined (reading 'BlockPublicAcls')")])
  /\ ~ public_access_error_isolated bucket_account data_bucket fresh_world.
Proof.
  split; [reflexivity|].
  intros [c [w' [E [_ [v [Hin Hname]]]]]].
  vm_compute in E. injection E as <- _. simpl in Hin.
  destruct Hin as [<-|[]]. discriminate Hname.
Qed.

(** C2, restated.  For a bucket whose public access block answer has no
    [PublicAccessBlockConfiguration] ([undefined] or [null]), the bucket
    check does not throw and leaves exactly one verdict, bucket-check with
    status ERROR and the TypeError's message: no public-access verdict and no
    encryption verdict.  The error stays with the bucket: in a run that
    returns, the entries of all other resources are those of the run without
    the bucket, in the same order. *)
Theorem missing_public_access_block (env : Env) (bucket : JSValue)
    (Bucket publicAccess conf : JSValue) :
  JS.get bucket "Name" = Ok Bucket ->
  s3_getBucketPublicAccessBlock env Bucket = Ok publicAccess ->
  JS.get publicAccess "PublicAccessBlockConfiguration" = Ok conf ->
  JS.nullish conf = true ->
  let entry :=
    mkResourceCheck S3Bucket Bucket
      [mkVerdict "bucket-check" ERROR
         (JStr (error_message env (TypeError (ReadOfNullish conf "BlockPublicAcls"))))] in
  (forall w, exists w', checkS3Bucket env bucket w = (Ok entry, w'))
  /\ (forall sgs before after roles clusters w r w',
         runSecurityChecks env
           (mkResources sgs (before ++ bucket :: after) roles clusters) w = (Ok r, w') ->
         exists cs1 cs2 r0 w0',
           results_checks r = (cs1 ++ entry :: cs2)%list
           /\ List.length cs1 = (List.length sgs + List.length before)%nat
           /\ runSecurityChecks env
                (mkResources sgs (before ++ after) roles clusters) w = (Ok r0, w0')
           /\ results_checks r0 = (cs1 ++ cs2)%list).
Proof.
  intros Hname Hpab Hconf Hnull entry.
  assert (Hcheck : forall w, exists w', checkS3Bucket env bucket w = (Ok entry, w')).
  { intros w. unfold checkS3Bucket. run_block. rewrite Hname, Hpab, Hconf.
    destruct conf; try discriminate; simpl; eexists; reflexivity. }
  split; [exact Hcheck|].
  intros sgs before after roles clusters w r w' E.
  apply runSecurityChecks_checks in E. unfold descriptors in E. simpl in E.
  rewrite map_app in E. simpl in E.
  rewrite <- app_assoc, app_assoc in E. simpl in E.
  apply mapR_split in E.
  destruct E as [cs1 [c [cs2 [H1 [Hc [H2 [Hcs [Hlen Hrest]]]]]]]].
  assert (c = entry).
  { unfold check_result, check_of in Hc. simpl in Hc.
    destruct (Hcheck blank_world) as [wb Hb]. rewrite Hb in Hc.
    injection Hc as <-. reflexivity. }
  subst c.
  pose proof (runSecurityChecks_result env
                (mkResources sgs (before ++ after) roles clusters) w) as R.
  unfold descriptors in R. simpl in R.
  rewrite map_app, <- app_assoc, app_assoc in R. rewrite Hrest in R. simpl in R.
  destruct (runSecurityChecks env (mkResources sgs (before ++ after) roles clusters) w)
    as [r0 w0'].
  simpl in R. subst r0.
  exists cs1, cs2. eexists; eexists.
  split; [exact Hcs|]. split; [|split; reflexivity].
  rewrite Hlen, length_app, !length_map. reflexivity.
Qed.

Lemma missing_public_access_block_witness :
  JS.nullish JUndefined = true
  /\ forall w, exists w',
       checkS3Bucket bucket_account data_bucket w
       = (Ok (mkResourceCheck S3Bucket (JStr "cloudsecdemo-data")
                [mkVerdict "bucket-check" ERROR
                   (JStr "Cannot read properties of undefined (reading 'BlockPublicAcls')")]),
          w').
Proof.
  split; [reflexivity|].
  exact (proj1 (missing_public_access_block bucket_account data_bucket
                  (JStr "cloudsecdemo-data") (JObj []) JUndefined
                  eq_refl eq_refl eq_refl eq_refl)).
Defined.

(** C3.  A role whose only inline policy document is
    [{"Action": "*", "Effect": "Allow", "Resource": "*"}] gets the verdict
    PASS: the serialized document reads ["Action":"*"], without the space of
    the text the check looks for.  No document serializes to a text with
    that space, so the role check never answers FAIL. *)
Theorem wildcard_policy_passes (w : World) :
  JS.stringify wildcard_document
  = Some ("{" ++ JS.dquote ++ "Action" ++ JS.dquote ++ ":" ++ JS.dquote ++ "*" ++ JS.dquote
          ++ "," ++ JS.dquote ++ "Effect" ++ JS.dquote ++ ":" ++ JS.dquote ++ "Allow" ++ JS.dquote
          ++ "," ++ JS.dquote ++ "Resource" ++ JS.dquote ++ ":" ++ JS.dquote ++ "*" ++ JS.dquote
          ++ "}")
  /\ fst (checkIAMRole wildcard_account admin_role w)
     = Ok (mkResourceCheck IAMRole (JStr "cloudsecdemo-admin")
             [mkVerdict "policy-admin" PASS JNull])
  /\ (forall doc, hasWildcardPermissions doc <> Ok true).
Proof.
  split; [reflexivity | split; [reflexivity|]].
  exact hasWildcardPermissions_never.
Qed.

(** C4.  The value published as SecurityCheckFailures is the number of FAIL
    verdicts of the report, all resources together; PASS and ERROR verdicts
    add nothing.  The metric request is the first thing [processResults]
    sends. *)
Theorem failures_published (env : Env) (results : Results) (w : World) :
  failures results = count_FAIL (all_verdicts results)
  /\ exists rest,
       sent (snd (processResults env results w))
       = (sent w
          ++ CloudWatchPutMetricData
               (failures_metric (count_FAIL (all_verdicts results)) (ENVIRONMENT w))
             :: rest)%list.
Proof.
  assert (Hf : failures results = count_FAIL (all_verdicts results)).
  { unfold failures, all_verdicts. rewrite failures_fold. reflexivity. }
  split; [exact Hf|].
  unfold processResults, failures_metric. rewrite Hf.
  set (n := count_FAIL (all_verdicts results)).
  unfold sendAlert, send, getenv, now. run_block.
  destruct (cloudwatch_putMetricData env _); simpl.
  - destruct (0 <? n)%nat; simpl.
    + destruct (sns_publish env _); simpl;
        eexists; rewrite <- app_assoc; reflexivity.
    + exists []. reflexivity.
  - exists []. reflexivity.
Qed.

(** C5 does not hold as the specification words it.  When CloudWatch
    refuses the metric, [processResults] throws before it reaches the alert:
    a report with a FAIL verdict leaves no alert behind.  The handler then
    sends its own alert, Security Check Error, whose message has no details;
    it does so after a run without any FAIL verdict too. *)
Lemma no_alert_when_metric_refused :
  (count_FAIL (all_verdicts failing_report) = 1%nat
   /\ sent (snd (processResults throttled_account failing_report fresh_world))
      = [CloudWatchPutMetricData (failures_metric 1 (JStr "secure"))]
   /\ ~ alert_iff_failures throttled_account failing_report fresh_world)
  /\ (map_result all_verdicts
        (fst (runSecurityChecks throttled_account (mkResources [] [] [] []) fresh_world))
      = Ok []
      /\ alerts (sent (snd (handler throttled_account fresh_world)))
         = [mkPublish (SNS_TOPIC_ARN fresh_world) "[CRITICAL] Security Check Error"
              (JS.stringify_pretty
                 (JObj [("message", JStr "Rate exceeded");
                        ("severity", JStr "CRITICAL");
                        ("timestamp", JStr "2024-01-01T00:00:01.000Z")]))]).
Proof.
  split; [split; [reflexivity | split; [reflexivity|]] | split; reflexivity].
  intros [_ H]. apply H; [|reflexivity]. vm_compute. lia.
Qed.

(** C5, restated.  When CloudWatch accepts the metric, [processResults]
    sends an alert if and only if the report has at least one FAIL verdict.
    The alert goes to the configured topic under the subject
    [[HIGH] Security Check Failures]; its message is the serialization,
    indented by two, of an object with the failure count message, the
    severity HIGH, the time of sending and the whole report as details. *)
Theorem alert_after_metric (env : Env) (results : Results) (w : World) :
  let n := count_FAIL (all_verdicts results) in
  let payload :=
    JObj [("message",
           JStr ("Found " ++ JS.Z_to_string (Z.of_nat n) ++ " security check failures"));
          ("severity", JStr "HIGH");
          ("timestamp", JStr (clock w (ticks w)));
          ("details", Results_to_js results)] in
  cloudwatch_putMetricData env (failures_metric n (ENVIRONMENT w)) = Ok tt ->
  exists new,
    sent (snd (processResults env results w))
    = (sent w ++ CloudWatchPutMetricData (failures_metric n (ENVIRONMENT w)) :: new)%list
    /\ (alerts new <> [] <-> (0 < n)%nat)
    /\ ((0 < n)%nat ->
        new = [SnsPublish (mkPublish (SNS_TOPIC_ARN w)
                             "[HIGH] Security Check Failures"
                             (JS.stringify_pretty payload))]
        /\ exists text, JS.stringify_pretty payload = Some text)
    /\ (n = 0%nat -> new = []).
Proof.
  intros n payload Hmetric.
  assert (Hf : failures results = n).
  { unfold failures, n, all_verdicts. rewrite failures_fold. reflexivity. }
  unfold processResults. rewrite Hf.
  unfold sendAlert, send, getenv, now, failures_metric in *. run_block.
  rewrite Hmetric.
  destruct (0 <? n)%nat eqn:Hn.
  - apply Nat.ltb_lt in Hn.
    exists [SnsPublish (mkPublish (SNS_TOPIC_ARN w) "[HIGH] Security Check Failures"
                          (JS.stringify_pretty payload))].
    split; [|split; [|split]].
    + destruct (sns_publish env _); simpl; rewrite <- app_assoc; reflexivity.
    + simpl. split; [intros _; exact Hn | discriminate].
    + intros _. split; [reflexivity | eexists; reflexivity].
    + lia.
  - apply Nat.ltb_ge in Hn.
    exists []. simpl. split; [reflexivity|]. split; [|split].
    + split; [intros H; elim H; reflexivity | lia].
    + lia.
    + reflexivity.
Qed.

Lemma alert_after_metric_witness :
  exists new,
    sent (snd (processResults closed_account failing_report fresh_world))
    = CloudWatchPutMetricData (failures_metric 1 (JStr "secure")) :: new
    /\ alerts new <> [].
Proof.
  destruct (alert_after_metric closed_account failing_report fresh_world eq_refl)
    as [new [Hsent [Hiff _]]].
  exists new. split; [exact Hsent|]. apply Hiff. vm_compute. lia.
Defined.

(** C6.  For a security group of the documented shape, the open-ports check
    leaves exactly one verdict, named open-ports, which is FAIL when some
    ingress permission has an IP range whose CIDR is exactly 0.0.0.0/0 and
    PASS when none has. *)
Theorem open_ports_check (sg : JSValue) (w : World) :
  wf_SecurityGroup sg = true ->
  exists id v,
    checkSecurityGroup sg w = (Ok (mkResourceCheck SecurityGroup id [v]), w)
    /\ name v = "open-ports"
    /\ (open_to_world sg -> status v = FAIL)
    /\ (~ open_to_world sg -> status v = PASS).
Proof.
  intros Hwf.
  destruct (get_of_non_nullish sg "GroupId" (wf_SecurityGroup_non_nullish sg Hwf))
    as [id Hid].
  destruct (hasOpenPorts_spec sg Hwf) as [b [Hb Hiff]].
  unfold checkSecurityGroup. run_block. rewrite Hid, Hb.
  eexists; eexists; split; [reflexivity|]. simpl.
  split; [reflexivity|]. split.
  - intros Ho. apply Hiff in Ho. subst b. reflexivity.
  - intros Hn. destruct b; [|reflexivity].
    exfalso. apply Hn, Hiff. reflexivity.
Qed.

Lemma open_ports_check_witness :
  wf_SecurityGroup sg_open = true
  /\ exists id v,
       checkSecurityGroup sg_open fresh_world
       = (Ok (mkResourceCheck SecurityGroup id [v]), fresh_world)
       /\ name v = "open-ports"
       /\ (open_to_world sg_open -> status v = FAIL)
       /\ (~ open_to_world sg_open -> status v = PASS).
Proof.
  split; [reflexivity | apply (open_ports_check sg_open fresh_world); reflexivity].
Defined.

Example open_ports_fail :
  map status (checks_of_result (fst (checkSecurityGroup sg_open fresh_world))) = [FAIL].
Proof. reflexivity. Qed.

Example open_ports_pass :
  map status (checks_of_result (fst (checkSecurityGroup sg_closed fresh_world))) = [PASS].
Proof. reflexivity. Qed.

(** C7.  End-to-end scenario: one cluster whose private endpoint access is
    off, which has no encryption configuration and whose only logging entry
    is disabled.  The run returns one entry for the cluster with exactly
    three verdicts, all FAIL, in the order private-endpoint, encryption,
    logging. *)
Theorem cluster_scenario (env : Env) (clusterName : JSValue) (w : World)
    (response c vpc logging : JSValue) :
  eks_describeCluster env clusterName = Ok response ->
  JS.get response "cluster" = Ok c ->
  JS.get c "resourcesVpcConfig" = Ok vpc ->
  JS.get vpc "endpointPrivateAccess" = Ok (JBool false) ->
  JS.get c "encryptionConfig" = Ok JUndefined ->
  JS.get c "logging" = Ok logging ->
  JS.get logging "clusterLogging"
    = Ok (JArr [JObj [("type", JStr "api"); ("enabled", JBool false)]]) ->
  exists r w',
    runSecurityChecks env (mkResources [] [] [] [clusterName]) w = (Ok r, w')
    /\ results_checks r =
       [mkResourceCheck EKSCluster clusterName
          [mkVerdict "private-endpoint" FAIL
             (JStr "Private endpoint access configuration");
           mkVerdict "encryption" FAIL (JStr "Encryption configuration");
           mkVerdict "logging" FAIL
             (JStr "Control plane logging configuration")]].
Proof.
  intros Hd Hc Hv Hp He Hl Hcl.
  unfold runSecurityChecks, checkEKSCluster, now, getenv. run_block.
  rewrite Hd, Hc, Hv, Hp, He, Hl, Hcl. simpl.
  eexists; eexists; split; reflexivity.
Qed.

Lemma cluster_scenario_witness :
  exists r w',
    runSecurityChecks scenario_account
      (mkResources [] [] [] [JStr "cloudsecdemo-cluster"]) fresh_world = (Ok r, w')
    /\ results_checks r =
       [mkResourceCheck EKSCluster (JStr "cloudsecdemo-cluster")
          [mkVerdict "private-endpoint" FAIL
             (JStr "Private endpoint access configuration");
           mkVerdict "encryption" FAIL (JStr "Encryption configuration");
           mkVerdict "logging" FAIL
             (JStr "Control plane logging configuration")]].
Proof.
  apply (cluster_scenario scenario_account (JStr "cloudsecdemo-cluster") fresh_world
           scenario_cluster
           (JObj [("name", JStr "cloudsecdemo-cluster");
                  ("resourcesVpcConfig", JObj [("endpointPrivateAccess", JBool false)]);
                  ("logging",
                   JObj [("clusterLogging",
                          JArr [JObj [("type", JStr "api");
                                      ("enabled", JBool false)]])])])
           (JObj [("endpointPrivateAccess", JBool false)])
           (JObj [("clusterLogging",
                   JArr [JObj [("type", JStr "api"); ("enabled", JBool false)]])]));
    reflexivity.
Defined.

(** C8 does not hold as the specification words it.  In an account that
    refuses every read, the entry of a bucket has one verdict, bucket-check,
    which is the name of neither rule of a bucket (public-access,
    encryption): it comes from the catch block around both. *)
Lemma error_verdict_belongs_to_no_rule :
  map_result results_checks
    (fst (runSecurityChecks closed_account (mkResources [] [data_bucket] [] [])
            fresh_world))
  = Ok [mkResourceCheck S3Bucket (JStr "cloudsecdemo-data")
          [mkVerdict "bucket-check" ERROR (JStr "Access Denied")]]
  /\ applicable_rules closed_account (S3Bucket, data_bucket)
     = Some ["public-access"; "encryption"]
  /\ ~ report_follows_rules closed_account (mkResources [] [data_bucket] [] [])
         fresh_world.
Proof.
  split; [reflexivity | split; [reflexivity|]].
  intros H.
  specialize (H _ _ eq_refl). simpl in H.
  inversion H as [|d c ds cs [_ [rules [Hrules Hin]]] _]; subst.
  injection Hrules as <-.
  destruct (Hin _ (or_introl eq_refl)) as [E|[E|[]]]; discriminate E.
Qed.

(** C8, restated.  A run that returns answers in the order of the batch,
    one entry per descriptor: security groups, buckets, roles, clusters, each
    list in its own order.  Each entry carries the kind and the identifier of
    its descriptor, and its verdicts are those of the rules of its
    descriptor, in rule order, up to the first rule whose evaluation throws;
    there the entry ends with the verdict of the kind's catch block
    (bucket-check, role-check or cluster-check, status ERROR, the error's
    message), which stands for that rule and for those after it.  So every
    verdict is the answer of a rule of its descriptor, or the closing ERROR
    verdict of its kind.  A kind without descriptors has no entry, and a
    descriptor with no applicable rule has no verdict.  On a well-formed
    batch the run does return. *)
Theorem runSecurityChecks_order (env : Env) (resources : Resources) (w : World) :
  (forall r w',
      runSecurityChecks env resources w = (Ok r, w') ->
      Forall2 (entry_by_rule env) (descriptors resources) (results_checks r)
      /\ (forall d c v,
             In (d, c) (combine (descriptors resources) (results_checks r)) ->
             In v (checks c) ->
             (exists rules rule,
                 rules_for env d = Ok rules /\ In rule rules
                 /\ name v = rule_name rule
                 /\ evaluate rule = Ok (status v, details v))
             \/ (status v = ERROR /\ error_verdict (fst d) = Some (name v)))
      /\ (forall t,
             (forall x, ~ In (t, x) (descriptors resources)) ->
             forall c, In c (results_checks r) -> resourceType c <> t)
      /\ (forall d c,
             In (d, c) (combine (descriptors resources) (results_checks r)) ->
             applicable_rules env d = Some [] -> checks c = []))
  /\ (wf_batch resources = true ->
      exists r w', runSecurityChecks env resources w = (Ok r, w')).
Proof.
  split; [|apply runSecurityChecks_total].
  intros r w' E. apply runSecurityChecks_checks in E.
  assert (F : Forall2 (entry_by_rule env) (descriptors resources) (results_checks r)).
  { apply mapR_Forall2 in E. eapply Forall2_impl; [|exact E].
    intros d c. apply check_result_by_rule. }
  split; [exact F | split; [|split]].
  - intros d c v Hin Hv.
    destruct (Forall2_combine _ _ _ _ _ F Hin) as [_ Hc].
    rewrite Hc in Hv. unfold verdicts_by_rule in Hv.
    destruct (rules_for env d) as [rules|e].
    + apply in_app_or in Hv. destruct Hv as [Hv|Hv].
      * destruct (answered_In rules v Hv) as [rule Hrule].
        left. exists rules, rule. split; [reflexivity | exact Hrule].
      * right. eapply closing_verdict_In; exact Hv.
    + right. eapply closing_verdict_In; exact Hv.
  - intros t Hnone c Hc Ht.
    destruct (Forall2_In_r _ _ _ _ F Hc) as [[t' x] [Hd [[Hty _] _]]].
    simpl in Hty. apply (Hnone x). congruence.
  - intros d c Hin Hrules.
    destruct (Forall2_combine _ _ _ _ _ F Hin) as [[_ [_ Ho]] _].
    rewrite Hrules in Ho. simpl in Ho.
    destruct Ho as [Ho | [k [e [Hk _]]]]; [|simpl in Hk; lia].
    destruct (checks c); [reflexivity | discriminate].
Qed.

Lemma runSecurityChecks_order_witness :
  wf_batch audited_batch = true
  /\ exists r w',
       runSecurityChecks audited_account audited_batch fresh_world = (Ok r, w')
       /\ map (fun c => map name (checks c)) (results_checks r)
          = [["open-ports"]; ["open-ports"];
             ["public-access"; "encryption"];
             ["public-access"; "bucket-check"];
             ["policy-read"; "policy-write"; "policy-admin"];
             ["private-endpoint"; "encryption"; "logging"];
             ["cluster-check"]]
       /\ Forall2 (entry_by_rule audited_account) (descriptors audited_batch)
                  (results_checks r).
Proof.
  split; [reflexivity|].
  destruct (runSecurityChecks_order audited_account audited_batch fresh_world)
    as [Hok Htotal].
  destruct (Htotal eq_refl) as [r [w' E]].
  exists r, w'. split; [exact E | split; [|exact (proj1 (Hok r w' E))]].
  vm_compute in E. injection E as <- _. reflexivity.
Defined.

(** C9.  The verdicts depend on the batch and on the answers of the services
    only: in any two worlds (console, clock, process environment, requests
    already sent) the run throws the same error or returns the same sequence
    of checks, and so does each single check.  In particular a second run,
    started in the world the first one left, repeats the verdicts of the
    first. *)
Theorem runSecurityChecks_deterministic (env : Env) (resources : Resources)
    (w1 w2 : World) :
  map_result results_checks (fst (runSecurityChecks env resources w1))
  = map_result results_checks (fst (runSecurityChecks env resources w2))
  /\ (forall d, fst (check_of env d w1) = fst (check_of env d w2))
  /\ map_result results_checks
       (fst (runSecurityChecks env resources
               (snd (runSecurityChecks env resources w1))))
     = map_result results_checks (fst (runSecurityChecks env resources w1)).
Proof.
  assert (H : forall w, map_result results_checks (fst (runSecurityChecks env resources w))
                        = mapR (check_result env) (descriptors resources)).
  { intros w. rewrite runSecurityChecks_result.
    destruct (mapR (check_result env) (descriptors resources)); reflexivity. }
  split; [|split].
  - rewrite !H. reflexivity.
  - intros d. apply check_of_oblivious.
  - rewrite !H. reflexivity.
Qed.

(** C10.  When the role's inline policies can be listed and each policy read,
    the role check leaves one verdict per inline policy, in the order of the
    listing, named policy- followed by the policy name, each PASS or FAIL;
    with no inline policy the verdict list is empty. *)
Theorem role_check_one_verdict_per_policy (env : Env) (role : JSValue) (w : World)
    (RoleName policies : JSValue) (names : list JSValue) :
  JS.get role "RoleName" = Ok RoleName ->
  iam_listRolePolicies env RoleName = Ok policies ->
  JS.get policies "PolicyNames" = Ok (JArr names) ->
  (forall policyName, In policyName names ->
     exists policy doc,
       iam_getRolePolicy env RoleName policyName = Ok policy
       /\ JS.get policy "PolicyDocument" = Ok doc
       /\ doc <> JUndefined) ->
  exists vs,
    checkIAMRole env role w = (Ok (mkResourceCheck IAMRole RoleName vs), w)
    /\ Forall2 (fun policyName v =>
                  name v = "policy-" ++ JS.toString policyName
                  /\ (status v = PASS \/ status v = FAIL))
               names vs
    /\ (names = [] -> vs = []).
Proof.
  intros Hrole Hlist Hnames Hpolicies.
  unfold checkIAMRole.
  match goal with |- context [for_of _ ?b] => set (B := b) end.
  destruct (for_of_all_pushed B
              (fun policyName v =>
                 name v = "policy-" ++ JS.toString policyName
                 /\ (status v = PASS \/ status v = FAIL))
              names) with (acc := @nil Verdict) (w := w) as [vs [Hloop HF]].
  { intros x Hx acc w0.
    destruct (Hpolicies x Hx) as [policy [doc [Hp [Hd Hu]]]].
    destruct (stringify_defined doc Hu) as [text Ht].
    subst B. unfold hasWildcardPermissions. run_block.
    rewrite Hrole, Hp, Hd, Ht.
    eexists. split; [reflexivity|]. simpl. split; [reflexivity|].
    destruct (JS.includes text wildcard_pattern); auto. }
  exists vs. split; [|split; [exact HF|]].
  - run_block. rewrite Hrole, Hlist, Hnames. simpl. rewrite Hloop. reflexivity.
  - intros ->. inversion HF. reflexivity.
Qed.

Lemma role_check_one_verdict_per_policy_witness :
  exists vs,
    checkIAMRole wildcard_account admin_role fresh_world
    = (Ok (mkResourceCheck IAMRole (JStr "cloudsecdemo-admin") vs), fresh_world)
    /\ Forall2 (fun policyName v =>
                  name v = "policy-" ++ JS.toString policyName
                  /\ (status v = PASS \/ status v = FAIL))
               [JStr "admin"] vs
    /\ ([JStr "admin"] = [] -> vs = []).
Proof.
  apply (role_check_one_verdict_per_policy wildcard_account admin_role fresh_world
           (JStr "cloudsecdemo-admin")
           (JObj [("PolicyNames", JArr [JStr "admin"])])
           [JStr "admin"]); try reflexivity.
  intros policyName _.
  exists (JObj [("RoleName", JStr "cloudsecdemo-admin"); ("PolicyName", policyName);
                ("PolicyDocument", wildcard_document)]), wildcard_document.
  repeat split; try reflexivity. discriminate.
Defined.

(** * Beyond the specification

    What the rest of the Lambda does: the listing, the error paths of the
    checks, the publishing and the handler. *)

(** ** The listing *)

Ltac next_step H :=
  match type of H with
  | rbind ?r _ = _ => destruct r eqn:?; cbn [rbind] in H; [|discriminate H]
  end.

Lemma array_filter_promises (g : JSValue -> Result JSValue) (l : list JSValue) :
  array_filter (fun x => Ok (ReturnsPromise (g x))) l = Ok l.
Proof.
  induction l as [|x r IH]; simpl; [reflexivity|].
  rewrite IH. reflexivity.
Qed.

Lemma array_filter_values (f : JSValue -> Result Returned) (p : JSValue -> bool)
    (l : list JSValue) :
  (forall x, In x l -> f x = Ok (Returns (JBool (p x)))) ->
  array_filter f l = Ok (filter p l).
Proof.
  induction l as [|x r IH]; intros H; simpl; [reflexivity|].
  rewrite (H x (or_introl eq_refl)), IH by (intros y Hy; apply H; right; exact Hy).
  simpl. reflexivity.
Qed.

Lemma array_filter_throws (f : JSValue -> Result Returned)
    (before after : list JSValue) (x : JSValue) (e : JSError) :
  (forall y, In y before -> exists r, f y = Ok r) ->
  f x = Throw e ->
  array_filter f (before ++ x :: after) = Throw e.
Proof.
  intros Hb Hx. induction before as [|y r IH]; simpl.
  - rewrite Hx. reflexivity.
  - destruct (Hb y (or_introl eq_refl)) as [ry ->]. simpl.
    rewrite IH by (intros z Hz; apply Hb; right; exact Hz). reflexivity.
Qed.

Lemma listed_buckets (a : Listing.Account) (tagged : Listing.Tagged) :
  Listing.listed a = Ok tagged ->
  exists buckets,
    Listing.s3_listBuckets a = Ok buckets
    /\ JS.get buckets "Buckets" = Ok (JArr (Listing.s3Buckets tagged)).
Proof.
  intros H. unfold Listing.listed in H.
  do 5 next_step H.
  match goal with
  | E : filter_method ?b _ _ = Ok ?l |- _ =>
      destruct b; simpl in E; try discriminate E;
      rewrite array_filter_promises in E; injection E as ->
  end.
  do 6 next_step H. injection H as <-. simpl.
  eexists. split; [reflexivity | assumption].
Qed.

(** X1.  The bucket filter keeps every bucket that [listBuckets] returned:
    its callback is [async], so what [filter] sees is a promise, which is
    truthy.  Nobody awaits these promises: what the function returns does not
    depend on the answers of the tag lookups. *)
Theorem every_bucket_kept :
  (forall a tagged,
      Listing.listed a = Ok tagged ->
      exists buckets,
        Listing.s3_listBuckets a = Ok buckets
        /\ JS.get buckets "Buckets" = Ok (JArr (Listing.s3Buckets tagged)))
  /\ (forall name tag groups buckets tagging tagging' roles clusters,
         Listing.listed
           (Listing.mkAccount name tag groups buckets tagging roles clusters)
         = Listing.listed
             (Listing.mkAccount name tag groups buckets tagging' roles clusters)).
Proof.
  split.
  - exact listed_buckets.
  - intros. unfold Listing.listed. simpl.
    destruct (groups _) as [sgResponse|]; [|reflexivity]. cbn [rbind].
    destruct (JS.get sgResponse "SecurityGroups"); [|reflexivity]. cbn [rbind].
    destruct buckets as [b|]; [|reflexivity]. cbn [rbind].
    destruct (JS.get b "Buckets") as [[]|]; try reflexivity.
    cbn [rbind filter_method]. rewrite !array_filter_promises. reflexivity.
Qed.

Lemma every_bucket_kept_witness :
  exists tagged,
    Listing.listed Listing.sample = Ok tagged
    /\ Listing.s3Buckets tagged
       = [JObj [("Name", JStr "cloudsecdemo-data")]; JObj [("Name", JStr "payroll")]].
Proof.
  destruct (Listing.listed Listing.sample) as [tagged|] eqn:E; [|discriminate E].
  exists tagged. split; [reflexivity|].
  destruct (proj1 every_bucket_kept Listing.sample tagged E) as [buckets [Hb Hl]].
  injection Hb as <-. injection Hl as <-. reflexivity.
Defined.

Lemma role_callback (a : Listing.Account) (role : JSValue) :
  Listing.has_string_RoleName role = true ->
  (RoleName <-? JS.get role "RoleName" ;;
   found <-? includes_method RoleName "role.RoleName.includes" (Listing.PROJECT_NAME a) ;;
   Ok (Returns (JBool found)))
  = Ok (Returns (JBool (Listing.role_in_project a role))).
Proof.
  unfold Listing.has_string_RoleName, Listing.role_in_project.
  destruct (JS.get role "RoleName") as [[]|]; try discriminate. reflexivity.
Qed.

Lemma cluster_callback (a : Listing.Account) (cluster : JSValue) :
  Listing.is_string cluster = true ->
  (found <-? includes_method cluster "cluster.includes" (Listing.PROJECT_NAME a) ;;
   Ok (Returns (JBool found)))
  = Ok (Returns (JBool (Listing.names_project a cluster))).
Proof. destruct cluster; try discriminate. reflexivity. Qed.

(** X2.  In an account whose listing calls answer with arrays, whose roles
    have a string [RoleName] and whose cluster names are strings, the listing
    returns: the security groups as EC2 gave them, every bucket, the roles
    whose name contains the project name and the clusters whose name contains
    it, each in the order of its listing; nothing is logged. *)
Theorem listing_of_account (a : Listing.Account) (w : World)
    (sgResponse groups buckets roles clusters : JSValue)
    (Buckets Roles names : list JSValue) :
  Listing.ec2_describeSecurityGroups a (Listing.PROJECT_TAG a) = Ok sgResponse ->
  JS.get sgResponse "SecurityGroups" = Ok groups ->
  Listing.s3_listBuckets a = Ok buckets ->
  JS.get buckets "Buckets" = Ok (JArr Buckets) ->
  Listing.iam_listRoles a = Ok roles ->
  JS.get roles "Roles" = Ok (JArr Roles) ->
  forallb Listing.has_string_RoleName Roles = true ->
  Listing.eks_listClusters a = Ok clusters ->
  JS.get clusters "clusters" = Ok (JArr names) ->
  forallb Listing.is_string names = true ->
  Listing.getTaggedResources a w
  = (Ok (Listing.mkTagged groups Buckets
           (filter (Listing.role_in_project a) Roles)
           (filter (Listing.names_project a) names)),
     w).
Proof.
  intros Hsg Hgroups Hb HB Hr HR Hnames Hc HC Hstrings.
  rewrite forallb_forall in Hnames, Hstrings.
  unfold Listing.getTaggedResources, try_catch, lift, Listing.listed.
  rewrite Hsg; cbn [rbind]. rewrite Hgroups; cbn [rbind].
  rewrite Hb; cbn [rbind]. rewrite HB; cbn [rbind filter_method].
  rewrite array_filter_promises; cbn [rbind].
  rewrite Hr; cbn [rbind]. rewrite HR; cbn [rbind filter_method].
  rewrite (array_filter_values _ (Listing.role_in_project a))
    by (intros x Hx; apply role_callback, Hnames, Hx).
  cbn [rbind]. rewrite Hc; cbn [rbind]. rewrite HC; cbn [rbind filter_method].
  rewrite (array_filter_values _ (Listing.names_project a))
    by (intros x Hx; apply cluster_callback, Hstrings, Hx).
  reflexivity.
Qed.

Lemma listing_of_account_witness :
  Listing.getTaggedResources Listing.sample fresh_world
  = (Ok (Listing.mkTagged
           (JArr [sg_closed])
           [JObj [("Name", JStr "cloudsecdemo-data")]; JObj [("Name", JStr "payroll")]]
           [JObj [("RoleName", JStr "cloudsecdemo-node")];
            JObj [("RoleName", JStr "old-cloudsecdemo-admin")]]
           [JStr "cloudsecdemo-cluster"]),
     fresh_world).
Proof.
  exact (listing_of_account Listing.sample fresh_world
           (JObj [("SecurityGroups", JArr [sg_closed])])
           (JArr [sg_closed])
           (JObj [("Buckets", JArr [JObj [("Name", JStr "cloudsecdemo-data")];
                                    JObj [("Name", JStr "payroll")]])])
           (JObj [("Roles", JArr [JObj [("RoleName", JStr "cloudsecdemo-node")];
                                  JObj [("RoleName", JStr "billing")];
                                  JObj [("RoleName", JStr "old-cloudsecdemo-admin")]])])
           (JObj [("clusters", JArr [JStr "cloudsecdemo-cluster"; JStr "staging"])])
           _ _ _
           eq_refl eq_refl eq_refl eq_refl eq_refl eq_refl eq_refl eq_refl eq_refl
           eq_refl).
Defined.

(** X3.  One listed role without a [RoleName] makes the whole listing fail:
    when the roles before it have string names, the TypeError of
    [role.RoleName.includes] is logged once and thrown again, and the
    security groups and buckets already found are lost, whatever the roles
    after it and the clusters are. *)
Theorem nameless_role_aborts_listing (a : Listing.Account) (w : World)
    (sgResponse groups buckets roles role RoleName : JSValue)
    (Buckets before after : list JSValue) :
  Listing.ec2_describeSecurityGroups a (Listing.PROJECT_TAG a) = Ok sgResponse ->
  JS.get sgResponse "SecurityGroups" = Ok groups ->
  Listing.s3_listBuckets a = Ok buckets ->
  JS.get buckets "Buckets" = Ok (JArr Buckets) ->
  Listing.iam_listRoles a = Ok roles ->
  JS.get roles "Roles" = Ok (JArr (before ++ role :: after)) ->
  forallb Listing.has_string_RoleName before = true ->
  JS.get role "RoleName" = Ok RoleName ->
  JS.nullish RoleName = true ->
  let error := TypeError (ReadOfNullish RoleName "includes") in
  fst (Listing.getTaggedResources a w) = Throw error
  /\ console (snd (Listing.getTaggedResources a w))
     = (console w ++ [ConsoleError "Error getting resources:" error])%list.
Proof.
  intros Hsg Hgroups Hb HB Hr HR Hnames Hrole Hnull error.
  rewrite forallb_forall in Hnames.
  assert (H : Listing.listed a = Throw error).
  { unfold Listing.listed.
    rewrite Hsg; cbn [rbind]. rewrite Hgroups; cbn [rbind].
    rewrite Hb; cbn [rbind]. rewrite HB; cbn [rbind filter_method].
    rewrite array_filter_promises; cbn [rbind].
    rewrite Hr; cbn [rbind]. rewrite HR; cbn [rbind filter_method].
    rewrite (array_filter_throws _ before after role error); [reflexivity| |].
    - intros y Hy. rewrite (role_callback a y (Hnames y Hy)). eauto.
    - rewrite Hrole. cbn [rbind]. destruct RoleName; try discriminate; reflexivity. }
  unfold Listing.getTaggedResources, try_catch, lift, bind, console_error.
  rewrite H. split; reflexivity.
Qed.

Lemma nameless_role_aborts_listing_witness :
  fst (Listing.getTaggedResources Listing.sample_with_nameless_role fresh_world)
  = Throw (TypeError (ReadOfNullish JUndefined "includes")).
Proof.
  exact (proj1 (nameless_role_aborts_listing Listing.sample_with_nameless_role fresh_world
                  (JObj [("SecurityGroups", JArr [sg_closed])])
                  (JArr [sg_closed])
                  (JObj [("Buckets", JArr [JObj [("Name", JStr "cloudsecdemo-data")];
                                           JObj [("Name", JStr "payroll")]])])
                  (JObj [("Roles",
                          JArr [JObj [("RoleName", JStr "cloudsecdemo-node")];
                                JObj [("Arn", JStr "arn:aws:iam::123456789012:role/x")];
                                JObj [("RoleName", JStr "billing")]])])
                  (JObj [("Arn", JStr "arn:aws:iam::123456789012:role/x")])
                  JUndefined
                  _
                  [JObj [("RoleName", JStr "cloudsecdemo-node")]]
                  [JObj [("RoleName", JStr "billing")]]
                  eq_refl eq_refl eq_refl eq_refl eq_refl eq_refl eq_refl eq_refl
                  eq_refl)).
Defined.

(** ** The role check *)

Lemma count_FAIL_app (a b : list Verdict) :
  count_FAIL (a ++ b) = (count_FAIL a + count_FAIL b)%nat.
Proof.
  induction a as [|v r IH]; simpl; [reflexivity|].
  destruct (status v); rewrite IH; reflexivity.
Qed.

Lemma count_FAIL_zero (vs : list Verdict) :
  count_FAIL vs = 0%nat <-> Forall (fun v => status v <> FAIL) vs.
Proof.
  induction vs as [|v r IH]; simpl.
  - split; [constructor | reflexivity].
  - destruct (status v) eqn:E.
    + rewrite IH. split; [constructor; [congruence | assumption] | inversion 1; assumption].
    + split; [discriminate | inversion 1; congruence].
    + rewrite IH. split; [constructor; [congruence | assumption] | inversion 1; assumption].
Qed.

Section LoopAppends.

Variable body : JSValue -> M (Filling Verdict) unit.
Variable P : Verdict -> Prop.

(** Whether it ends normally or throws, an iteration only appends verdicts
    that satisfy [P], and leaves the world alone. *)
Hypothesis body_appends : forall x acc w,
  exists vs, snd (body x (acc, w)) = ((acc ++ vs)%list, w) /\ Forall P vs.

Lemma for_of_appends (l : list JSValue) (acc : list Verdict) (w : World) :
  exists vs, snd (for_of l body (acc, w)) = ((acc ++ vs)%list, w) /\ Forall P vs.
Proof.
  revert acc. induction l as [|x r IH]; intros acc; simpl.
  - exists []. rewrite app_nil_r. split; [reflexivity | constructor].
  - unfold bind. destruct (body_appends x acc w) as [vs [Hs HP]].
    destruct (body x (acc, w)) as [[[]|e] st]; simpl in Hs; subst st.
    + destruct (IH (acc ++ vs)%list) as [vs' [Hs' HP']].
      exists (vs ++ vs')%list. rewrite Hs', app_assoc.
      split; [reflexivity | apply Forall_app; auto].
    + exists vs. split; [reflexivity | exact HP].
Qed.

End LoopAppends.

Lemma policy_turn_passes env role x acc w :
  exists vs,
    snd ((RoleName <- lift (JS.get role "RoleName") ;;
          policy <- lift (iam_getRolePolicy env RoleName x) ;;
          doc <- lift (JS.get policy "PolicyDocument") ;;
          wildcard <- lift (hasWildcardPermissions doc) ;;
          push (mkVerdict ("policy-" ++ JS.toString x)
                  (if wildcard then FAIL else PASS)
                  (if wildcard then JStr "Policy contains wildcard permissions"
                   else JNull))) (acc, w))
    = ((acc ++ vs)%list, w)
    /\ Forall (fun v => status v = PASS) vs.
Proof.
  run_block.
  destruct (JS.get role "RoleName") as [RoleName|];
    [|exists []; rewrite app_nil_r; split; [reflexivity | constructor]].
  destruct (iam_getRolePolicy env RoleName x) as [policy|];
    [|exists []; rewrite app_nil_r; split; [reflexivity | constructor]].
  destruct (JS.get policy "PolicyDocument") as [doc|];
    [|exists []; rewrite app_nil_r; split; [reflexivity | constructor]].
  pose proof (hasWildcardPermissions_never doc) as Hnever.
  destruct (hasWildcardPermissions doc) as [[]|];
    [congruence | |exists []; rewrite app_nil_r; split; [reflexivity | constructor]].
  eexists. split; [reflexivity|]. repeat constructor.
Qed.

Lemma checkIAMRole_passes (env : Env) (role : JSValue) (w w' : World)
    (c : ResourceCheck) :
  checkIAMRole env role w = (Ok c, w') ->
  Forall (fun v => status v <> FAIL) (checks c).
Proof.
  unfold checkIAMRole.
  match goal with |- context [for_of _ ?b] => set (B := b) end.
  pose proof (for_of_appends B (fun v => status v = PASS)
                (policy_turn_passes env role)) as L.
  run_block. intros H.
  repeat break_match; try discriminate; injection H as <- _; simpl;
    repeat match goal with
           | E : for_of ?l B (?acc, ?w) = _ |- _ =>
               destruct (L l acc w) as [vs [Hs HP]]; rewrite E in Hs; simpl in Hs;
               injection Hs as -> _; clear E
           end;
    rewrite ?Forall_app; repeat split;
    try (eapply Forall_impl; [|eassumption]; simpl; intros v ->; discriminate);
    repeat constructor; simpl; discriminate.
Qed.

(** X4.  The role check never answers FAIL: for every account, role and
    world, each verdict it returns is PASS or the closing role-check ERROR.
    The wildcard text it searches for cannot occur in a serialized policy
    document. *)
Theorem role_check_never_fails (env : Env) (role : JSValue) (w w' : World)
    (c : ResourceCheck) :
  checkIAMRole env role w = (Ok c, w') ->
  Forall (fun v => status v <> FAIL) (checks c)
  /\ count_FAIL (checks c) = 0%nat.
Proof.
  intros H. pose proof (checkIAMRole_passes env role w w' c H) as Hpass.
  split; [exact Hpass | apply count_FAIL_zero; exact Hpass].
Qed.

Lemma role_check_never_fails_witness :
  Forall (fun v => status v <> FAIL) [mkVerdict "policy-admin" PASS JNull]
  /\ count_FAIL [mkVerdict "policy-admin" PASS JNull] = 0%nat.
Proof.
  exact (role_check_never_fails wildcard_account admin_role fresh_world fresh_world
           (mkResourceCheck IAMRole (JStr "cloudsecdemo-admin")
              [mkVerdict "policy-admin" PASS JNull])
           eq_refl).
Defined.

(** X5.  Roles never add to the published total: in every report the run
    returns, the failure total is the number of FAIL verdicts of the entries
    that are not roles.  A batch of roles alone has total zero. *)
Theorem roles_add_no_failures (env : Env) (resources : Resources) (w w' : World)
    (r : Results) :
  runSecurityChecks env resources w = (Ok r, w') ->
  failures r
  = count_FAIL (flat_map checks (filter (fun c => negb (is_role c)) (results_checks r)))
  /\ (securityGroups resources = [] -> s3Buckets resources = [] ->
      eksClusters resources = [] -> failures r = 0%nat).
Proof.
  intros E. apply runSecurityChecks_checks in E. apply mapR_Forall2 in E.
  assert (Hroles : Forall (fun c => is_role c = true -> count_FAIL (checks c) = 0%nat)
                     (results_checks r)).
  { induction E as [|d c ds cs Hd _ IH]; constructor; [|exact IH].
    intros Hc. apply count_FAIL_zero.
    pose proof (check_result_verdicts env d c Hd) as [Hty _].
    unfold check_result, check_of in Hd. unfold is_role in Hc.
    rewrite Hty in Hc. destruct (fst d); try discriminate.
    destruct (checkIAMRole env (snd d) blank_world) as [res wb] eqn:Hrun.
    simpl in Hd. subst res. eapply checkIAMRole_passes. exact Hrun. }
  assert (Htotal : failures r
                   = count_FAIL (flat_map checks
                                   (filter (fun c => negb (is_role c)) (results_checks r)))).
  { unfold failures. rewrite failures_fold. simpl. clear E.
    induction Hroles as [|c cs Hc _ IH]; simpl; [reflexivity|].
    rewrite count_FAIL_app, IH.
    destruct (is_role c); simpl.
    - rewrite Hc by reflexivity. reflexivity.
    - rewrite count_FAIL_app. reflexivity. }
  split; [exact Htotal|].
  intros Hs Hb Hc. rewrite Htotal.
  assert (Hall : Forall (fun c => is_role c = true) (results_checks r)).
  { unfold descriptors in E. rewrite Hs, Hb, Hc in E. simpl in E.
    rewrite app_nil_r in E.
    apply Forall_forall. intros c Hin.
    destruct (Forall2_In_r _ _ _ _ E Hin) as [d [Hd Hres]].
    apply in_map_iff in Hd. destruct Hd as [x [<- _]].
    pose proof (check_result_verdicts env _ c Hres) as [Hty _].
    unfold is_role. rewrite Hty. reflexivity. }
  clear - Hall. induction Hall as [|c cs Hc _ IH]; simpl; [reflexivity|].
  rewrite Hc. simpl. exact IH.
Qed.

Lemma roles_add_no_failures_witness :
  exists r w',
    runSecurityChecks wildcard_account (mkResources [] [] [admin_role] []) fresh_world
    = (Ok r, w')
    /\ failures r = 0%nat.
Proof.
  destruct (runSecurityChecks wildcard_account (mkResources [] [] [admin_role] [])
              fresh_world) as [[r|e] w'] eqn:E; [|discriminate E].
  exists r, w'. split; [reflexivity|].
  exact (proj2 (roles_add_no_failures wildcard_account _ fresh_world w' r E)
           eq_refl eq_refl eq_refl).
Defined.

Lemma policy_turn env role RoleName x acc w :
  JS.get role "RoleName" = Ok RoleName ->
  (RoleName <- lift (JS.get role "RoleName") ;;
   policy <- lift (iam_getRolePolicy env RoleName x) ;;
   doc <- lift (JS.get policy "PolicyDocument") ;;
   wildcard <- lift (hasWildcardPermissions doc) ;;
   push (mkVerdict ("policy-" ++ JS.toString x)
           (if wildcard then FAIL else PASS)
           (if wildcard then JStr "Policy contains wildcard permissions"
            else JNull))) (acc, w)
  = match policy_wildcard env RoleName x with
    | Ok _ => (Ok tt, ((acc ++ [mkVerdict ("policy-" ++ JS.toString x) PASS JNull])%list, w))
    | Throw e => (Throw e, (acc, w))
    end.
Proof.
  intros Hrole. unfold policy_wildcard. run_block. rewrite Hrole.
  destruct (iam_getRolePolicy env RoleName x) as [policy|]; simpl; [|reflexivity].
  destruct (JS.get policy "PolicyDocument") as [doc|]; simpl; [|reflexivity].
  pose proof (hasWildcardPermissions_never doc) as Hnever.
  destruct (hasWildcardPermissions doc) as [[]|]; [congruence | reflexivity | reflexivity].
Qed.

(** X6.  A policy that cannot be read ends the role check: the policies
    listed before it keep their verdicts, all PASS, the closing verdict is
    role-check ERROR with the error's message, the error is logged once, and
    the policies listed after it are not examined. *)
Theorem unreadable_policy_ends_role_check (env : Env) (role : JSValue) (w : World)
    (RoleName policies p : JSValue) (before after : list JSValue) (e : JSError) :
  JS.get role "RoleName" = Ok RoleName ->
  iam_listRolePolicies env RoleName = Ok policies ->
  JS.get policies "PolicyNames" = Ok (JArr (before ++ p :: after)) ->
  (forall n, In n before -> exists b, policy_wildcard env RoleName n = Ok b) ->
  policy_wildcard env RoleName p = Throw e ->
  fst (checkIAMRole env role w)
  = Ok (mkResourceCheck IAMRole RoleName
          (map (fun n => mkVerdict ("policy-" ++ JS.toString n) PASS JNull) before
           ++ [mkVerdict "role-check" ERROR (JStr (error_message env e))])%list)
  /\ console (snd (checkIAMRole env role w))
     = (console w
        ++ [ConsoleError ("Error checking role " ++ JS.toString RoleName ++ ":") e])%list.
Proof.
  intros Hrole Hlist Hnames Hbefore Hp.
  unfold checkIAMRole.
  match goal with |- context [for_of _ ?b] => set (B := b) end.
  assert (Hloop : forall acc,
             for_of (before ++ p :: after) B (acc, w)
             = (Throw e,
                ((acc ++ map (fun n => mkVerdict ("policy-" ++ JS.toString n) PASS JNull)
                           before)%list, w))).
  { clear Hnames. induction before as [|n r IH]; intros acc; simpl; unfold bind.
    - subst B. cbv beta. rewrite (policy_turn env role RoleName p acc w Hrole), Hp.
      rewrite app_nil_r. reflexivity.
    - destruct (Hbefore n (or_introl eq_refl)) as [b Hb].
      assert (Hn : B n (acc, w)
                   = (Ok tt, ((acc ++ [mkVerdict ("policy-" ++ JS.toString n) PASS JNull])%list,
                              w))).
      { subst B. cbv beta. rewrite (policy_turn env role RoleName n acc w Hrole), Hb.
        reflexivity. }
      rewrite Hn, IH by (intros m Hm; apply Hbefore; right; exact Hm).
      rewrite <- app_assoc. reflexivity. }
  run_block. rewrite Hrole, Hlist, Hnames. simpl. rewrite Hloop. simpl.
  split; reflexivity.
Qed.

Lemma unreadable_policy_ends_role_check_witness :
  fst (checkIAMRole three_policies_account admin_role fresh_world)
  = Ok (mkResourceCheck IAMRole (JStr "cloudsecdemo-admin")
          [mkVerdict "policy-read" PASS JNull;
           mkVerdict "role-check" ERROR (JStr "Access Denied")]).
Proof.
  refine (proj1 (unreadable_policy_ends_role_check three_policies_account admin_role
                   fresh_world (JStr "cloudsecdemo-admin")
                   (JObj [("PolicyNames", JArr [JStr "read"; JStr "write"; JStr "admin"])])
                   (JStr "write") [JStr "read"] [JStr "admin"]
                   (ServiceError "AccessDenied" "Access Denied")
                   eq_refl eq_refl eq_refl _ eq_refl)).
  intros n [<-|[]]. exists false. reflexivity.
Defined.

(** ** The bucket and cluster checks *)

(** X7.  When a lookup of the bucket check is refused, the error becomes the
    closing verdict bucket-check ERROR with the error's message and is logged
    once.  Refused at the public access block, it is the only verdict;
    refused at the encryption lookup, the public-access verdict already given
    is kept and no encryption verdict follows. *)
Theorem bucket_lookup_refused (env : Env) (bucket Bucket : JSValue) (w : World) :
  JS.get bucket "Name" = Ok Bucket ->
  (forall e,
      s3_getBucketPublicAccessBlock env Bucket = Throw e ->
      fst (checkS3Bucket env bucket w)
      = Ok (mkResourceCheck S3Bucket Bucket
              [mkVerdict "bucket-check" ERROR (JStr (error_message env e))])
      /\ console (snd (checkS3Bucket env bucket w))
         = (console w
            ++ [ConsoleError ("Error checking bucket " ++ JS.toString Bucket ++ ":") e])%list)
  /\ (forall publicAccess conf block e,
         s3_getBucketPublicAccessBlock env Bucket = Ok publicAccess ->
         JS.get publicAccess "PublicAccessBlockConfiguration" = Ok conf ->
         JS.get conf "BlockPublicAcls" = Ok block ->
         s3_getBucketEncryption env Bucket = Throw e ->
         fst (checkS3Bucket env bucket w)
         = Ok (mkResourceCheck S3Bucket Bucket
                 [mkVerdict "public-access" (if JS.truthy block then PASS else FAIL)
                    (JStr "Public access block configuration");
                  mkVerdict "bucket-check" ERROR (JStr (error_message env e))])
         /\ console (snd (checkS3Bucket env bucket w))
            = (console w
               ++ [ConsoleError ("Error checking bucket " ++ JS.toString Bucket ++ ":") e])%list).
Proof.
  intros Hname. split.
  - intros e Hpab. unfold checkS3Bucket. run_block. rewrite Hname, Hpab.
    split; reflexivity.
  - intros publicAccess conf block e Hpab Hconf Hblock Henc.
    unfold checkS3Bucket. run_block. rewrite Hname, Hpab, Hconf, Hblock, Henc.
    split; reflexivity.
Qed.

Lemma bucket_lookup_refused_witness :
  fst (checkS3Bucket unencrypted_account data_bucket fresh_world)
  = Ok (mkResourceCheck S3Bucket (JStr "cloudsecdemo-data")
          [mkVerdict "public-access" PASS (JStr "Public access block configuration");
           mkVerdict "bucket-check" ERROR
             (JStr "The server side encryption configuration was not found")]).
Proof.
  exact (proj1 (proj2 (bucket_lookup_refused unencrypted_account data_bucket
                         (JStr "cloudsecdemo-data") fresh_world eq_refl)
                  (JObj [("PublicAccessBlockConfiguration",
                          JObj [("BlockPublicAcls", JBool true)])])
                  (JObj [("BlockPublicAcls", JBool true)])
                  (JBool true)
                  (ServiceError "ServerSideEncryptionConfigurationNotFoundError"
                     "The server side encryption configuration was not found")
                  eq_refl eq_refl eq_refl eq_refl)).
Defined.

Lemma logging_some (entries : list JSValue) :
  forallb (fun entry => negb (JS.nullish entry)) entries = true ->
  array_some (fun l => e <-? JS.get l "enabled" ;; Ok (JS.truthy e)) entries
  = Ok (existsb logging_enabled entries).
Proof.
  induction entries as [|x r IH]; simpl; [reflexivity|].
  rewrite andb_true_iff, negb_true_iff. intros [Hx Hr].
  unfold logging_enabled at 1.
  destruct (get_of_non_nullish x "enabled" Hx) as [v ->]. simpl.
  destruct (JS.truthy v); [reflexivity | exact (IH Hr)].
Qed.

(** X8.  For a cluster that EKS describes with a [resourcesVpcConfig], a
    [logging] object and an array [clusterLogging] of entries, the cluster
    check returns exactly three verdicts and logs nothing: private-endpoint
    passes when [endpointPrivateAccess] is truthy, encryption when
    [encryptionConfig] is truthy (an empty array is), logging when some entry
    has a truthy [enabled]; with no entry at all logging fails. *)
Theorem cluster_check (env : Env) (clusterName : JSValue) (w : World)
    (response c vpc private encryptionConfig logging : JSValue)
    (entries : list JSValue) :
  eks_describeCluster env clusterName = Ok response ->
  JS.get response "cluster" = Ok c ->
  JS.get c "resourcesVpcConfig" = Ok vpc ->
  JS.get vpc "endpointPrivateAccess" = Ok private ->
  JS.get c "encryptionConfig" = Ok encryptionConfig ->
  JS.get c "logging" = Ok logging ->
  JS.get logging "clusterLogging" = Ok (JArr entries) ->
  forallb (fun entry => negb (JS.nullish entry)) entries = true ->
  checkEKSCluster env clusterName w
  = (Ok (mkResourceCheck EKSCluster clusterName
           [mkVerdict "private-endpoint" (if JS.truthy private then PASS else FAIL)
              (JStr "Private endpoint access configuration");
            mkVerdict "encryption" (if JS.truthy encryptionConfig then PASS else FAIL)
              (JStr "Encryption configuration");
            mkVerdict "logging" (if existsb logging_enabled entries then PASS else FAIL)
              (JStr "Control plane logging configuration")]),
     w).
Proof.
  intros Hd Hc Hv Hp He Hl Hcl Hentries.
  unfold checkEKSCluster. run_block.
  rewrite Hd, Hc, Hv, Hp, He, Hl, Hcl. simpl.
  rewrite (logging_some entries Hentries). reflexivity.
Qed.

Lemma cluster_check_witness :
  checkEKSCluster scenario_account (JStr "cloudsecdemo-cluster") fresh_world
  = (Ok (mkResourceCheck EKSCluster (JStr "cloudsecdemo-cluster")
           [mkVerdict "private-endpoint" FAIL
              (JStr "Private endpoint access configuration");
            mkVerdict "encryption" FAIL (JStr "Encryption configuration");
            mkVerdict "logging" FAIL (JStr "Control plane logging configuration")]),
     fresh_world).
Proof.
  exact (cluster_check scenario_account (JStr "cloudsecdemo-cluster") fresh_world
           scenario_cluster
           (JObj [("name", JStr "cloudsecdemo-cluster");
                  ("resourcesVpcConfig", JObj [("endpointPrivateAccess", JBool false)]);
                  ("logging",
                   JObj [("clusterLogging",
                          JArr [JObj [("type", JStr "api");
                                      ("enabled", JBool false)]])])])
           (JObj [("endpointPrivateAccess", JBool false)])
           (JBool false) JUndefined
           (JObj [("clusterLogging",
                   JArr [JObj [("type", JStr "api"); ("enabled", JBool false)]])])
           [JObj [("type", JStr "api"); ("enabled", JBool false)]]
           eq_refl eq_refl eq_refl eq_refl eq_refl eq_refl eq_refl eq_refl).
Defined.

(** ** Errors in a report *)

Ltac verdicts_pass_or_fail :=
  solve [repeat first [apply Forall_nil | apply Forall_cons]; simpl; auto].

Ltac shape_closed :=
  simpl;
  match goal with
  | |- exists vs, _ /\ ((?l = vs /\ _) \/ _) =>
      first [ exists l; split; [verdicts_pass_or_fail | left; split; reflexivity]
            | exists (removelast l); simpl; split;
              [ verdicts_pass_or_fail
              | right; do 3 eexists; repeat split; reflexivity ] ]
  end.

Lemma check_of_shape (env : Env) (d : ResourceType * JSValue)
    (w w' : World) (c : ResourceCheck) :
  check_of env d w = (Ok c, w') ->
  exists vs,
    Forall (fun v => status v = PASS \/ status v = FAIL) vs
    /\ ((checks c = vs /\ w' = w)
        \/ exists nm e msg,
             error_verdict (fst d) = Some nm
             /\ checks c = (vs ++ [mkVerdict nm ERROR (JStr (error_message env e))])%list
             /\ console w' = (console w ++ [ConsoleError msg e])%list
             /\ sent w' = sent w
             /\ ticks w' = ticks w).
Proof.
  destruct d as [[] x]; unfold check_of; simpl fst; simpl snd; cbv iota.
  - unfold checkSecurityGroup. run_block. intros H.
    repeat break_match; try discriminate; injection H as <- <-; shape_closed.
  - unfold checkS3Bucket. run_block. intros H.
    repeat break_match; try discriminate; injection H as <- <-; shape_closed.
  - unfold checkIAMRole.
    match goal with |- context [for_of _ ?b] => set (B := b) end.
    pose proof (for_of_appends B (fun v => status v = PASS)
                  (policy_turn_passes env x)) as L.
    run_block. intros H.
    repeat break_match; try discriminate; injection H as <- <-;
      repeat match goal with
             | E : for_of ?l B (?acc, ?w0) = _ |- _ =>
                 destruct (L l acc w0) as [vs [Hs HP]]; rewrite E in Hs; simpl in Hs;
                 injection Hs as -> ->; clear E
             end;
      simpl;
      first [ exists vs; split;
              [ eapply Forall_impl; [|exact HP]; simpl; auto
              | first [ left; split; reflexivity
                      | right; do 3 eexists; repeat split; reflexivity ] ]
            | shape_closed ].
  - unfold checkEKSCluster.
    match goal with |- context [some _ _ ?f] => set (enabled := f) end.
    run_block. intros H.
    repeat break_match; try discriminate; injection H as <- <-; shape_closed.
Qed.

Lemma count_ERROR_app (a b : list Verdict) :
  count_ERROR (a ++ b) = (count_ERROR a + count_ERROR b)%nat.
Proof.
  induction a as [|v r IH]; simpl; [reflexivity|].
  destruct (status v); rewrite IH; reflexivity.
Qed.

Lemma count_ERROR_none (vs : list Verdict) :
  Forall (fun v => status v = PASS \/ status v = FAIL) vs -> count_ERROR vs = 0%nat.
Proof.
  induction 1 as [|v r [Hv|Hv] _ IH]; simpl; [reflexivity| |]; rewrite Hv; exact IH.
Qed.

(** X9.  In the entry a check returns, ERROR occurs at most once, as the
    last verdict, under the error name of the kind and with the message of an
    error that the check has logged once; every other verdict is PASS or
    FAIL.  An entry without ERROR leaves the world as it was. *)
Theorem error_verdict_is_last_and_logged (env : Env) (d : ResourceType * JSValue)
    (w w' : World) (c : ResourceCheck) :
  check_of env d w = (Ok c, w') ->
  (count_ERROR (checks c) <= 1)%nat
  /\ exists vs,
       Forall (fun v => status v = PASS \/ status v = FAIL) vs
       /\ ((checks c = vs /\ w' = w)
           \/ exists nm e msg,
                error_verdict (fst d) = Some nm
                /\ checks c = (vs ++ [mkVerdict nm ERROR (JStr (error_message env e))])%list
                /\ console w' = (console w ++ [ConsoleError msg e])%list
                /\ sent w' = sent w
                /\ ticks w' = ticks w).
Proof.
  intros H. destruct (check_of_shape env d w w' c H) as [vs [Hvs Hshape]].
  split; [|exists vs; split; assumption].
  destruct Hshape as [[-> _] | [nm [e [msg [_ [-> _]]]]]].
  - rewrite (count_ERROR_none vs Hvs). lia.
  - rewrite count_ERROR_app, (count_ERROR_none vs Hvs). simpl. lia.
Qed.

Lemma error_verdict_is_last_and_logged_witness :
  (count_ERROR
     [mkVerdict "public-access" PASS (JStr "Public access block configuration");
      mkVerdict "bucket-check" ERROR
        (JStr "The server side encryption configuration was not found")] <= 1)%nat.
Proof.
  exact (proj1 (error_verdict_is_last_and_logged unencrypted_account
                  (S3Bucket, data_bucket) fresh_world
                  (snd (checkS3Bucket unencrypted_account data_bucket fresh_world))
                  _ eq_refl)).
Defined.

Lemma check_of_logs env d w c w1 :
  check_of env d w = (Ok c, w1) ->
  List.length (console w1) = (List.length (console w) + count_ERROR (checks c))%nat
  /\ sent w1 = sent w
  /\ ticks w1 = ticks w.
Proof.
  intros H. destruct (check_of_shape env d w w1 c H) as [vs [Hvs Hshape]].
  destruct Hshape as [[-> ->] | [nm [e [msg [_ [-> [Hc [Hs Ht]]]]]]]].
  - rewrite (count_ERROR_none vs Hvs). split; [lia | split; reflexivity].
  - rewrite count_ERROR_app, (count_ERROR_none vs Hvs), Hc, length_app. simpl.
    split; [reflexivity | split; assumption].
Qed.

Lemma logs_errors_for_of (f : JSValue -> M World ResourceCheck) (l : list JSValue) :
  (forall x w c w1,
      f x w = (Ok c, w1) ->
      List.length (console w1) = (List.length (console w) + count_ERROR (checks c))%nat
      /\ sent w1 = sent w /\ ticks w1 = ticks w) ->
  logs_errors (for_of l (fun x => c <- await (f x) ;; push c)).
Proof.
  intros Hf. induction l as [|x r IH]; intros acc w acc' w' H; simpl in H.
  - injection H as <- <-. exists []. rewrite app_nil_r. simpl.
    split; [reflexivity | split; [lia | split; reflexivity]].
  - unfold bind at 1 in H. unfold bind at 1, await at 1, push at 1 in H.
    destruct (f x w) as [[c|e] w1] eqn:E; [|discriminate H].
    destruct (Hf x w c w1 E) as [Hc [Hs Ht]].
    destruct (IH _ _ _ _ H) as [cs [-> [Hc' [Hs' Ht']]]].
    exists (c :: cs). rewrite <- app_assoc. simpl. rewrite count_ERROR_app.
    split; [reflexivity | split; [lia | split; congruence]].
Qed.

Lemma logs_errors_seq c1 c2 :
  logs_errors c1 -> logs_errors c2 -> logs_errors (c1 ;; c2).
Proof.
  intros H1 H2 acc w acc' w' H. unfold bind in H.
  destruct (c1 (acc, w)) as [[[]|e] [acc1 w1]] eqn:E1; [|discriminate H].
  destruct (H1 _ _ _ _ E1) as [cs1 [-> [Hc1 [Hs1 Ht1]]]].
  destruct (H2 _ _ _ _ H) as [cs2 [-> [Hc2 [Hs2 Ht2]]]].
  exists (cs1 ++ cs2)%list. rewrite app_assoc, flat_map_app, count_ERROR_app.
  repeat split; [lia | congruence | congruence].
Qed.

(** X10.  What a run that returns has done to the world: it has read the
    clock once, for the report's timestamp, it has sent nothing, and it has
    logged exactly as many console errors as the report has ERROR
    verdicts. *)
Theorem run_logs_each_error (env : Env) (resources : Resources) (w w' : World)
    (r : Results) :
  runSecurityChecks env resources w = (Ok r, w') ->
  List.length (console w')
  = (List.length (console w) + count_ERROR (all_verdicts r))%nat
  /\ sent w' = sent w
  /\ ticks w' = S (ticks w)
  /\ timestamp r = clock w (ticks w)
  /\ environment r = ENVIRONMENT w.
Proof.
  unfold runSecurityChecks.
  match goal with |- context [filled ?c] => set (loops := c) end.
  assert (L : logs_errors loops).
  { subst loops. repeat apply logs_errors_seq; apply logs_errors_for_of; intros x w0 c w1 E.
    - apply (check_of_logs env (SecurityGroup, x) w0 c w1 E).
    - apply (check_of_logs env (S3Bucket, x) w0 c w1 E).
    - apply (check_of_logs env (IAMRole, x) w0 c w1 E).
    - apply (check_of_logs env (EKSCluster, x) w0 c w1 E). }
  unfold bind at 1. unfold now at 1. unfold bind at 1. unfold getenv at 1.
  unfold bind at 1. unfold filled at 1. unfold ret.
  match goal with |- context [loops ([], ?w1)] =>
    destruct (loops ([], w1)) as [[[]|e] [cs w2]] eqn:E; [|discriminate]
  end.
  intros H. injection H as <- <-.
  destruct (L _ _ _ _ E) as [cs' [Hcs [Hc [Hs Ht]]]]. simpl in Hcs. subst cs'.
  simpl in *. unfold all_verdicts. simpl.
  split; [assumption | split; [assumption | split; [assumption | split; reflexivity]]].
Qed.

Lemma run_logs_each_error_witness :
  exists r w',
    runSecurityChecks closed_account mixed_batch fresh_world = (Ok r, w')
    /\ count_ERROR (all_verdicts r) = 3%nat
    /\ List.length (console w') = 3%nat.
Proof.
  destruct (runSecurityChecks closed_account mixed_batch fresh_world)
    as [[r|e] w'] eqn:E; [|discriminate E].
  exists r, w'. split; [reflexivity|].
  destruct (run_logs_each_error closed_account mixed_batch fresh_world w' r E)
    as [Hc _].
  assert (Hr : count_ERROR (all_verdicts r) = 3%nat).
  { vm_compute in E. injection E as <- _. reflexivity. }
  split; [exact Hr | rewrite Hc, Hr; reflexivity].
Defined.

(** ** What can leave the run *)

Lemma get_throws_TypeError v k e : JS.get v k = Throw e -> is_TypeError e.
Proof. destruct v; simpl; intros H; try discriminate; injection H as <-; exact I. Qed.

Lemma array_some_throws_TypeError (f : JSValue -> Result bool) (l : list JSValue) e :
  (forall x e', f x = Throw e' -> is_TypeError e') ->
  array_some f l = Throw e -> is_TypeError e.
Proof.
  intros Hf. induction l as [|x r IH]; simpl; [discriminate|].
  destruct (f x) as [[]|e'] eqn:E; [discriminate | exact IH |].
  intros H. injection H as <-. exact (Hf x e' E).
Qed.

Lemma some_throws_TypeError v what (f : JSValue -> Result bool) e :
  (forall x e', f x = Throw e' -> is_TypeError e') ->
  some v what f = Throw e -> is_TypeError e.
Proof.
  intros Hf. destruct v; simpl; intros H;
    try (injection H as <-; exact I).
  eapply array_some_throws_TypeError; eassumption.
Qed.

Lemma hasOpenPorts_throws_TypeError sg e :
  hasOpenPorts sg = Throw e -> is_TypeError e.
Proof.
  unfold hasOpenPorts.
  destruct (JS.get sg "IpPermissions") as [perms|e0] eqn:Hp; simpl.
  - apply some_throws_TypeError. intros perm e'.
    destruct (JS.get perm "IpRanges") as [ranges|e1] eqn:Hr; simpl.
    + apply some_throws_TypeError. intros range e''.
      destruct (JS.get range "CidrIp") as [cidr|e2] eqn:Hc; simpl; [discriminate|].
      intros H. injection H as <-. exact (get_throws_TypeError _ _ _ Hc).
    + intros H. injection H as <-. exact (get_throws_TypeError _ _ _ Hr).
  - intros H. injection H as <-. exact (get_throws_TypeError _ _ _ Hp).
Qed.

Lemma check_result_throws_TypeError env d e :
  check_result env d = Throw e -> is_TypeError e.
Proof.
  unfold check_result, check_of. destruct d as [[] x]; simpl.
  - unfold checkSecurityGroup. run_block.
    destruct (JS.get x "GroupId") as [id|e0] eqn:Hid; simpl.
    + destruct (hasOpenPorts x) as [b|e1] eqn:Ho; simpl; [discriminate|].
      intros H. injection H as <-. exact (hasOpenPorts_throws_TypeError _ _ Ho).
    + intros H. injection H as <-. exact (get_throws_TypeError _ _ _ Hid).
  - destruct (JS.nullish x) eqn:Hn.
    + destruct x; try discriminate Hn; intros H; injection H as <-; exact I.
    + destruct (checkS3Bucket_total env x blank_world Hn) as [c [w' ->]]. discriminate.
  - destruct (JS.nullish x) eqn:Hn.
    + destruct x; try discriminate Hn; intros H; injection H as <-; exact I.
    + destruct (checkIAMRole_total env x blank_world Hn) as [c [w' ->]]. discriminate.
  - destruct (checkEKSCluster_total env x blank_world) as [c [w' ->]]. discriminate.
Qed.

Lemma mapR_throws {A B} (g : A -> Result B) (l : list A) e :
  mapR g l = Throw e -> exists x, In x l /\ g x = Throw e.
Proof.
  induction l as [|x r IH]; simpl; [discriminate|].
  destruct (g x) as [y|e0] eqn:E; simpl.
  - destruct (mapR g r) as [ys|e1]; simpl; [discriminate|].
    intros H. injection H as <-. destruct (IH eq_refl) as [z [Hz Hg]]. eauto.
  - intros H. injection H as <-. eauto.
Qed.

(** X11.  An error of an AWS service never leaves the run: whatever the
    services answer, every exception that [runSecurityChecks] throws is a
    TypeError, raised by a security group, or by a bucket or role entry that
    is [null] or [undefined]. *)
Theorem only_type_errors_leave_the_run (env : Env) (resources : Resources)
    (w : World) (e : JSError) :
  fst (runSecurityChecks env resources w) = Throw e ->
  is_TypeError e
  /\ exists d, In d (descriptors resources)
               /\ fst d <> EKSCluster
               /\ fst (check_of env d w) = Throw e
               /\ (fst d = SecurityGroup \/ JS.nullish (snd d) = true).
Proof.
  rewrite runSecurityChecks_result. intros H.
  destruct (mapR (check_result env) (descriptors resources)) as [cs|e0] eqn:E;
    [discriminate|].
  simpl in H. injection H as ->.
  destruct (mapR_throws _ _ _ E) as [d [Hin Hd]].
  split; [exact (check_result_throws_TypeError env d e Hd)|].
  exists d. split; [exact Hin|]. rewrite check_of_result.
  destruct d as [[] x]; simpl; unfold check_result, check_of in Hd; simpl in Hd.
  - repeat split; [discriminate | exact Hd | left; reflexivity].
  - repeat split; [discriminate | exact Hd |]. right.
    destruct (JS.nullish x) eqn:Hn; [reflexivity|].
    destruct (checkS3Bucket_total env x blank_world Hn) as [c [w' Hc]].
    rewrite Hc in Hd. discriminate.
  - repeat split; [discriminate | exact Hd |]. right.
    destruct (JS.nullish x) eqn:Hn; [reflexivity|].
    destruct (checkIAMRole_total env x blank_world Hn) as [c [w' Hc]].
    rewrite Hc in Hd. discriminate.
  - destruct (checkEKSCluster_total env x blank_world) as [c [w' Hc]].
    rewrite Hc in Hd. discriminate.
Qed.

Lemma only_type_errors_leave_the_run_witness :
  is_TypeError (TypeError (ReadOfNullish JUndefined "some")).
Proof.
  exact (proj1 (only_type_errors_leave_the_run peer_account
                  (mkResources [sg_peer_only] [] [] []) fresh_world
                  (TypeError (ReadOfNullish JUndefined "some")) eq_refl)).
Defined.

(** X12.  The checks with a catch block always return: the bucket check and
    the role check for every bucket and role that is not [null] or
    [undefined], the cluster check for every cluster name, whatever the
    services answer, malformed answers included. *)
Theorem checks_with_catch_return (env : Env) (x : JSValue) (w : World) :
  (exists c w', checkEKSCluster env x w = (Ok c, w'))
  /\ (JS.nullish x = false ->
      (exists c w', checkS3Bucket env x w = (Ok c, w'))
      /\ (exists c w', checkIAMRole env x w = (Ok c, w'))).
Proof.
  split; [apply checkEKSCluster_total|].
  intros Hn. split; [apply checkS3Bucket_total | apply checkIAMRole_total]; exact Hn.
Qed.

Lemma checks_with_catch_return_witness :
  (exists c w', checkS3Bucket closed_account (JNum 7) fresh_world = (Ok c, w'))
  /\ (exists c w', checkIAMRole closed_account (JNum 7) fresh_world = (Ok c, w')).
Proof.
  exact (proj2 (checks_with_catch_return closed_account (JNum 7) fresh_world) eq_refl).
Defined.

(** ** The first open range *)

Lemma array_some_first (f : JSValue -> Result bool) (before after : list JSValue)
    (x : JSValue) :
  (forall y, In y before -> f y = Ok false) ->
  f x = Ok true ->
  array_some f (before ++ x :: after) = Ok true.
Proof.
  intros Hb Hx. induction before as [|y r IH]; simpl.
  - rewrite Hx. reflexivity.
  - rewrite (Hb y (or_introl eq_refl)). apply IH. intros z Hz. apply Hb. right. exact Hz.
Qed.

Lemma closed_range_answer range :
  closed_range range = true ->
  (cidr <-? JS.get range "CidrIp" ;; Ok (JS.strict_eq_str cidr "0.0.0.0/0")) = Ok false.
Proof.
  unfold closed_range. rewrite andb_true_iff. intros [_ H].
  destruct (JS.get range "CidrIp") as [cidr|]; [|discriminate]. simpl.
  apply negb_true_iff in H. rewrite H. reflexivity.
Qed.

Lemma array_some_none (f : JSValue -> Result bool) (l : list JSValue) :
  (forall y, In y l -> f y = Ok false) -> array_some f l = Ok false.
Proof.
  induction l as [|y r IH]; intros H; simpl; [reflexivity|].
  rewrite (H y (or_introl eq_refl)). apply IH. intros z Hz. apply H. right. exact Hz.
Qed.

(** X13.  The open-ports check stops at the first range open to
    0.0.0.0/0: when the permissions before it hold only other ranges, and so
    do the ranges before it in its own permission, the verdict is FAIL
    whatever follows, malformed permissions and ranges included. *)
Theorem first_open_range_decides (sg id perm range : JSValue) (w : World)
    (perms_before perms_after ranges_before ranges_after : list JSValue) :
  JS.get sg "GroupId" = Ok id ->
  JS.get sg "IpPermissions" = Ok (JArr (perms_before ++ perm :: perms_after)) ->
  forallb closed_permission perms_before = true ->
  JS.get perm "IpRanges" = Ok (JArr (ranges_before ++ range :: ranges_after)) ->
  forallb closed_range ranges_before = true ->
  JS.get range "CidrIp" = Ok (JStr "0.0.0.0/0") ->
  checkSecurityGroup sg w
  = (Ok (mkResourceCheck SecurityGroup id
           [mkVerdict "open-ports" FAIL
              (JStr "Security group has ports open to 0.0.0.0/0")]),
     w).
Proof.
  intros Hid Hperms Hpb Hranges Hrb Hrange.
  rewrite forallb_forall in Hpb, Hrb.
  assert (Ho : hasOpenPorts sg = Ok true).
  { unfold hasOpenPorts. rewrite Hperms. cbn [rbind some].
    apply array_some_first.
    - intros p Hp. specialize (Hpb p Hp). unfold closed_permission in Hpb.
      destruct (JS.get p "IpRanges") as [[| | | | |ranges|]|]; try discriminate.
      cbn [rbind some]. rewrite forallb_forall in Hpb.
      apply array_some_none. intros r Hr. apply closed_range_answer, Hpb, Hr.
    - rewrite Hranges. cbn [rbind some]. apply array_some_first.
      + intros r Hr. apply closed_range_answer, Hrb, Hr.
      + rewrite Hrange. reflexivity. }
  unfold checkSecurityGroup. run_block. rewrite Hid, Ho. reflexivity.
Qed.

Lemma first_open_range_decides_witness :
  checkSecurityGroup sg_open_then_malformed fresh_world
  = (Ok (mkResourceCheck SecurityGroup (JStr "sg-0a1b")
           [mkVerdict "open-ports" FAIL
              (JStr "Security group has ports open to 0.0.0.0/0")]),
     fresh_world).
Proof.
  exact (first_open_range_decides sg_open_then_malformed (JStr "sg-0a1b")
           (JObj [("IpRanges", JArr [JObj [("CidrIp", JStr "0.0.0.0/0")]; JNull])])
           (JObj [("CidrIp", JStr "0.0.0.0/0")])
           fresh_world
           [JObj [("IpRanges", JArr [JObj [("CidrIp", JStr "10.0.0.0/8")]])]]
           [JObj [("UserIdGroupPairs", JArr [])]]
           [] [JNull]
           eq_refl eq_refl eq_refl eq_refl eq_refl eq_refl).
Defined.

(** ** Publishing and the handler *)

(** X14.  [processResults] throws in two cases only, and then the very error
    it was given: CloudWatch refuses the metric, or the metric is accepted,
    some verdict is FAIL and SNS refuses the alert. *)
Theorem processResults_throws (env : Env) (results : Results) (w : World)
    (e : JSError) :
  fst (processResults env results w) = Throw e
  <-> cloudwatch_putMetricData env
        (failures_metric (failures results) (ENVIRONMENT w)) = Throw e
      \/ (cloudwatch_putMetricData env
            (failures_metric (failures results) (ENVIRONMENT w)) = Ok tt
          /\ (0 < failures results)%nat
          /\ sns_publish env
               (failures_alert (failures results) results (SNS_TOPIC_ARN w)
                  (clock w (ticks w))) = Throw e).
Proof.
  unfold processResults, sendAlert, send, getenv, now, failures_metric, failures_alert,
    alert_payload.
  run_block.
  destruct (cloudwatch_putMetricData env _) as [[]|e0]; simpl.
  - destruct (0 <? failures results)%nat eqn:Hn; simpl.
    + apply Nat.ltb_lt in Hn.
      destruct (sns_publish env _) as [[]|e1]; simpl.
      * split; [discriminate | intros [H|[_ [_ H]]]; discriminate].
      * split.
        -- intros H. injection H as <-. right. auto.
        -- intros [H|[_ [_ H]]]; [discriminate | injection H as <-; reflexivity].
    + apply Nat.ltb_ge in Hn.
      split; [discriminate | intros [H|[_ [H _]]]; [discriminate | lia]].
  - split.
    + intros H. injection H as <-. left. reflexivity.
    + intros [H|[H _]]; [injection H as <-; reflexivity | discriminate].
Qed.

(** X15.  The handler answers only with status 200, and only when the
    listing, the run and the publishing have all succeeded; the body is then
    the compact serialization of the report of that run. *)
Theorem handler_answers_200 (env : Env) (w : World) (response : Response) :
  fst (handler env w) = Ok response ->
  statusCode response = 200%Z
  /\ exists resources results text,
       tagged_resources env = Ok resources
       /\ fst (runSecurityChecks env resources (started w)) = Ok results
       /\ fst (processResults env results
                 (snd (runSecurityChecks env resources (started w)))) = Ok tt
       /\ JS.stringify (Results_to_js results) = Some text
       /\ body response = Some text.
Proof.
  unfold handler, getTaggedResources, started.
  unfold bind at 1. unfold console_log at 1. cbv iota beta.
  unfold try_catch at 1.
  unfold bind at 1. unfold try_catch at 1. unfold lift at 1.
  destruct (tagged_resources env) as [resources|e0].
  - unfold bind at 1.
    destruct (runSecurityChecks env resources _) as [[results|e1] w1] eqn:Erun.
    + unfold bind at 1.
      destruct (processResults env results w1) as [[[]|e2] w2] eqn:Eproc.
      * unfold ret. simpl. intros H. injection H as <-. simpl.
        split; [reflexivity|].
        exists resources, results. eexists.
        unfold console_log. simpl. rewrite Erun. simpl. rewrite Eproc. simpl.
        repeat split; reflexivity.
      * intros H. exfalso. revert H.
        unfold sendAlert, send, getenv, now. run_block.
        destruct (sns_publish env _); discriminate.
    + intros H. exfalso. revert H.
      unfold sendAlert, send, getenv, now. run_block.
      destruct (sns_publish env _); discriminate.
  - intros H. exfalso. revert H.
    unfold sendAlert, send, getenv, now. run_block.
    destruct (sns_publish env _); discriminate.
Qed.

Lemma handler_answers_200_witness :
  exists response,
    fst (handler scenario_account fresh_world) = Ok response
    /\ statusCode response = 200%Z.
Proof.
  destruct (fst (handler scenario_account fresh_world)) as [response|e] eqn:E;
    [|discriminate E].
  exists response. split; [reflexivity|].
  exact (proj1 (handler_answers_200 scenario_account fresh_world response E)).
Defined.

(** X16.  Whenever the handler throws, the last request it has made is the
    alert Security Check Error, with severity CRITICAL in its subject and a
    message text.  This covers what the handler awaits: the listing as it
    settles, the checks and the processing of the results.  A promise that is
    rejected without being awaited, as those of the bucket filter in
    [getTaggedResources] can be, never reaches the handler's catch block:
    what the runtime does with it is not part of the statement. *)
Theorem failed_invocation_alerts (env : Env) (w : World) (e : JSError) :
  fst (handler env w) = Throw e ->
  exists earlier input text,
    sent (snd (handler env w)) = (earlier ++ [SnsPublish input])%list
    /\ Subject input = "[CRITICAL] Security Check Error"
    /\ Message input = Some text.
Proof.
  unfold handler.
  match goal with |- context [try_catch ?b ?c] => set (attempt := b) end.
  unfold sendAlert, send, getenv, now, console_log. run_block.
  match goal with
  | |- context [attempt ?x] => destruct (attempt x) as [[response|e0] w1]
  end; [discriminate|].
  intros _.
  match goal with
  | |- context [sns_publish env ?i] => destruct (sns_publish env i)
  end; simpl;
    eexists; eexists; eexists; (split; [reflexivity | split; reflexivity]).
Qed.

Lemma failed_invocation_alerts_witness :
  exists earlier input text,
    sent (snd (handler closed_account fresh_world)) = (earlier ++ [SnsPublish input])%list
    /\ Subject input = "[CRITICAL] Security Check Error"
    /\ Message input = Some text.
Proof.
  exact (failed_invocation_alerts closed_account fresh_world
           (ServiceError "AccessDenied" "Access Denied") eq_refl).
Defined.

(** X17.  When the listing fails, the handler logs the error twice (in
    [getTaggedResources] and in its own catch), sends one alert with the
    error's message and no details, and throws the error again; if SNS
    refuses the alert, it throws the error of SNS instead and the error of
    the listing stays in the log only. *)
Theorem listing_failure_is_reported (env : Env) (w : World) (e : JSError) :
  tagged_resources env = Throw e ->
  let input := error_alert env e (SNS_TOPIC_ARN w) (clock w (ticks w)) in
  sent (snd (handler env w)) = (sent w ++ [SnsPublish input])%list
  /\ (sns_publish env input = Ok tt ->
      fst (handler env w) = Throw e
      /\ console (snd (handler env w))
         = (console w
            ++ [ConsoleLog "Starting security check run";
                ConsoleError "Error getting resources:" e;
                ConsoleError "Error in security check:" e])%list)
  /\ (forall e', sns_publish env input = Throw e' ->
      fst (handler env w) = Throw e'
      /\ console (snd (handler env w))
         = (console w
            ++ [ConsoleLog "Starting security check run";
                ConsoleError "Error getting resources:" e;
                ConsoleError "Error in security check:" e;
                ConsoleError "Error sending alert:" e'])%list).
Proof.
  intros Hlist input. subst input.
  unfold handler, getTaggedResources, error_alert, sendAlert, send, getenv, now,
    console_log, alert_payload.
  run_block. rewrite Hlist. simpl.
  split; [destruct (sns_publish env _); reflexivity|].
  split.
  - intros Hsns. rewrite Hsns. simpl. rewrite <- !app_assoc. split; reflexivity.
  - intros e' Hsns. rewrite Hsns. simpl. rewrite <- !app_assoc. split; reflexivity.
Qed.

Lemma listing_failure_is_reported_witness :
  fst (handler closed_account fresh_world)
  = Throw (ServiceError "AccessDenied" "Access Denied")
  /\ fst (handler silent_account fresh_world)
     = Throw (ServiceError "AuthorizationError" "Not authorized to publish").
Proof.
  split.
  - exact (proj1 (proj1 (proj2 (listing_failure_is_reported closed_account fresh_world
                                  (ServiceError "AccessDenied" "Access Denied") eq_refl))
                    eq_refl)).
  - exact (proj1 (proj2 (proj2 (listing_failure_is_reported silent_account fresh_world
                                  (ServiceError "AccessDenied" "Access Denied") eq_refl))
                    (ServiceError "AuthorizationError" "Not authorized to publish")
                    eq_refl)).
Defined.

(** ** From the listing to the report *)

Lemma entries_of_kind env (t : ResourceType) (xs : list JSValue) (cs : list ResourceCheck) :
  Forall2 (fun d c => check_result env d = Ok c) (map (pair t) xs) cs ->
  Forall2 (fun x c => resourceType c = t /\ id_of (t, x) = Ok (resourceId c)) xs cs.
Proof.
  revert cs. induction xs as [|x r IH]; intros cs H; inversion H; subst; constructor.
  - match goal with E : check_result env _ = Ok _ |- _ =>
      destruct (check_result_verdicts env _ _ E) as [Hty [Hid _]] end.
    split; assumption.
  - apply IH. assumption.
Qed.

Lemma filter_is_bucket_all (xs : list JSValue) (cs : list ResourceCheck) :
  Forall2 (fun x c => resourceType c = S3Bucket /\ id_of (S3Bucket, x) = Ok (resourceId c))
    xs cs ->
  filter is_bucket cs = cs.
Proof.
  induction 1 as [|x c xs cs [Hty _] _ IH]; simpl; [reflexivity|].
  unfold is_bucket at 1. rewrite Hty, IH. reflexivity.
Qed.

Lemma filter_is_bucket_none (t : ResourceType) (xs : list JSValue)
    (cs : list ResourceCheck) :
  t <> S3Bucket ->
  Forall2 (fun x c => resourceType c = t /\ id_of (t, x) = Ok (resourceId c)) xs cs ->
  filter is_bucket cs = [].
Proof.
  intros Ht. induction 1 as [|x c xs cs [Hty _] _ IH]; simpl; [reflexivity|].
  unfold is_bucket at 1. rewrite Hty, IH. destruct t; try reflexivity. congruence.
Qed.

(** X18.  Listing and run together: when the listing returns and the run
    over what it returned returns, the report has one bucket entry for every
    bucket of the account, tagged for the project or not, in the order of
    [listBuckets] and under the bucket's [Name]. *)
Theorem every_bucket_is_checked (a : Listing.Account) (env : Env)
    (tagged : Listing.Tagged) (batch : Resources) (w w' : World) (r : Results) :
  Listing.listed a = Ok tagged ->
  batch_of tagged = Ok batch ->
  runSecurityChecks env batch w = (Ok r, w') ->
  exists buckets Buckets,
    Listing.s3_listBuckets a = Ok buckets
    /\ JS.get buckets "Buckets" = Ok (JArr Buckets)
    /\ Forall2 (fun bucket c =>
                  resourceType c = S3Bucket /\ JS.get bucket "Name" = Ok (resourceId c))
               Buckets (filter is_bucket (results_checks r)).
Proof.
  intros Hlisted Hbatch Hrun.
  destruct (listed_buckets a tagged Hlisted) as [buckets [Hb HB]].
  exists buckets, (Listing.s3Buckets tagged). split; [exact Hb | split; [exact HB|]].
  unfold batch_of in Hbatch.
  destruct (JS.iterate _ _) as [groups|]; [|discriminate Hbatch].
  simpl in Hbatch. injection Hbatch as <-.
  apply runSecurityChecks_checks in Hrun. apply mapR_Forall2 in Hrun.
  unfold descriptors in Hrun. simpl in Hrun.
  apply Forall2_app_inv_l in Hrun. destruct Hrun as [cs1 [rest1 [H1 [Hrun ->]]]].
  apply Forall2_app_inv_l in Hrun. destruct Hrun as [cs2 [rest2 [H2 [Hrun ->]]]].
  apply Forall2_app_inv_l in Hrun. destruct Hrun as [cs3 [cs4 [H3 [H4 ->]]]].
  apply entries_of_kind in H1, H2, H3, H4.
  rewrite !filter_app.
  rewrite (filter_is_bucket_none SecurityGroup _ _ ltac:(discriminate) H1).
  rewrite (filter_is_bucket_all _ _ H2).
  rewrite (filter_is_bucket_none IAMRole _ _ ltac:(discriminate) H3).
  rewrite (filter_is_bucket_none EKSCluster _ _ ltac:(discriminate) H4).
  simpl. rewrite app_nil_r. exact H2.
Qed.

Lemma every_bucket_is_checked_witness :
  exists r w',
    runSecurityChecks closed_account
      (mkResources [sg_closed]
         [JObj [("Name", JStr "cloudsecdemo-data")]; JObj [("Name", JStr "payroll")]]
         [JObj [("RoleName", JStr "cloudsecdemo-node")];
          JObj [("RoleName", JStr "old-cloudsecdemo-admin")]]
         [JStr "cloudsecdemo-cluster"]) fresh_world = (Ok r, w')
    /\ List.length (filter is_bucket (results_checks r)) = 2%nat.
Proof.
  destruct (runSecurityChecks closed_account
              (mkResources [sg_closed]
                 [JObj [("Name", JStr "cloudsecdemo-data")]; JObj [("Name", JStr "payroll")]]
                 [JObj [("RoleName", JStr "cloudsecdemo-node")];
                  JObj [("RoleName", JStr "old-cloudsecdemo-admin")]]
                 [JStr "cloudsecdemo-cluster"]) fresh_world) as [[r|e] w'] eqn:E;
    [|discriminate E].
  exists r, w'. split; [reflexivity|].
  destruct (every_bucket_is_checked Listing.sample closed_account _ _ fresh_world w' r
              eq_refl eq_refl E) as [buckets [Buckets [Hb [HB HF]]]].
  injection Hb as <-. injection HB as <-.
  apply Forall2_length in HF. symmetry. exact HF.
Defined.

(** ** The project name *)

Lemma array_filter_In (f : JSValue -> Result Returned) (l kept : list JSValue) x :
  array_filter f l = Ok kept -> In x kept ->
  In x l /\ exists r, f x = Ok r /\ Returned_truthy r = true.
Proof.
  revert kept. induction l as [|y r IH]; simpl; intros kept H Hin.
  - injection H as <-. destruct Hin.
  - destruct (f y) as [ry|] eqn:Ey; simpl in H; [|discriminate H].
    destruct (array_filter f r) as [rest|]; simpl in H; [|discriminate H].
    injection H as <-.
    destruct (Returned_truthy ry) eqn:Et.
    + destruct Hin as [<-|Hin]; [split; [left; reflexivity | eauto]|].
      destruct (IH rest eq_refl Hin) as [Hl Hr]. split; [right; exact Hl | exact Hr].
    + destruct (IH rest eq_refl Hin) as [Hl Hr]. split; [right; exact Hl | exact Hr].
Qed.

Lemma or_default_not_empty v : Listing.or_default v <> EmptyString.
Proof. destruct v as [[|c s]|]; simpl; discriminate. Qed.

Lemma includes_in_empty needle :
  JS.includes EmptyString needle = true -> needle = EmptyString.
Proof. destruct needle; [reflexivity | discriminate]. Qed.

(** X19.  The project name is never empty: an unset or empty
    [PROJECT_NAME] gives [cloudsecdemo].  So the role filter never keeps
    everything by accident: every role the listing keeps has a [RoleName]
    that is a string containing the project name or an array with the
    project name as an element, and a role whose name is the empty string is
    never kept. *)
Theorem kept_roles_carry_the_project_name (a : Listing.Account)
    (tagged : Listing.Tagged) (role : JSValue) :
  Listing.listed a = Ok tagged ->
  In role (Listing.iamRoles tagged) ->
  Listing.PROJECT_NAME a <> EmptyString
  /\ JS.get role "RoleName" <> Ok (JStr EmptyString)
  /\ ((exists s, JS.get role "RoleName" = Ok (JStr s)
                 /\ JS.includes s (Listing.PROJECT_NAME a) = true)
      \/ (exists l, JS.get role "RoleName" = Ok (JArr l)
                    /\ In (JStr (Listing.PROJECT_NAME a)) l)).
Proof.
  intros H Hin.
  assert (Hne : Listing.PROJECT_NAME a <> EmptyString) by apply or_default_not_empty.
  unfold Listing.listed in H.
  do 11 next_step H. injection H as <-. simpl in Hin.
  match goal with
  | E : filter_method ?b "roles.Roles.filter" _ = Ok _ |- _ =>
      destruct b; simpl in E; try discriminate E;
      destruct (array_filter_In _ _ _ role E Hin) as [_ [r [Hr Ht]]]
  end.
  destruct (JS.get role "RoleName") as [RoleName|]; [|discriminate Hr].
  cbn [rbind] in Hr.
  destruct RoleName; simpl in Hr; try discriminate Hr; injection Hr as <-; simpl in Ht.
  - split; [exact Hne|]. split.
    + intros E. injection E as ->. apply includes_in_empty in Ht. contradiction.
    + left. eauto.
  - split; [exact Hne|]. split; [discriminate|]. right.
    eexists. split; [reflexivity|].
    apply existsb_exists in Ht. destruct Ht as [x [Hx Heq]].
    apply strict_eq_str_true in Heq. subst x. exact Hx.
Qed.

Lemma kept_roles_carry_the_project_name_witness :
  Listing.PROJECT_NAME Listing.sample <> EmptyString
  /\ JS.get (JObj [("RoleName", JStr "old-cloudsecdemo-admin")]) "RoleName"
     <> Ok (JStr EmptyString).
Proof.
  destruct (kept_roles_carry_the_project_name Listing.sample
              (Listing.mkTagged (JArr [sg_closed])
                 [JObj [("Name", JStr "cloudsecdemo-data")]; JObj [("Name", JStr "payroll")]]
                 [JObj [("RoleName", JStr "cloudsecdemo-node")];
                  JObj [("RoleName", JStr "old-cloudsecdemo-admin")]]
                 [JStr "cloudsecdemo-cluster"])
              (JObj [("RoleName", JStr "old-cloudsecdemo-admin")])
              eq_refl (or_intror (or_introl eq_refl))) as [H1 [H2 _]].
  split; assumption.
Defined.

(** ** A refused alert *)

(** X20.  When the run has found failures, CloudWatch accepts the metric and
    SNS refuses the failures alert, the handler tries once more: it sends the
    alert Security Check Error with the message of the SNS error, so the
    invocation has made three requests, the metric and two alerts, before it
    throws. *)
Theorem refused_alert_is_followed_by_error_alert (env : Env) (w w1 : World)
    (resources : Resources) (results : Results) (e : JSError) :
  tagged_resources env = Ok resources ->
  runSecurityChecks env resources (started w) = (Ok results, w1) ->
  (0 < failures results)%nat ->
  cloudwatch_putMetricData env (failures_metric (failures results) (ENVIRONMENT w1))
  = Ok tt ->
  sns_publish env
    (failures_alert (failures results) results (SNS_TOPIC_ARN w1) (clock w1 (ticks w1)))
  = Throw e ->
  (exists e', fst (handler env w) = Throw e')
  /\ sent (snd (handler env w))
     = (sent w1
        ++ [CloudWatchPutMetricData
              (failures_metric (failures results) (ENVIRONMENT w1));
            SnsPublish
              (failures_alert (failures results) results (SNS_TOPIC_ARN w1)
                 (clock w1 (ticks w1)));
            SnsPublish
              (error_alert env e (SNS_TOPIC_ARN w1) (clock w1 (S (ticks w1))))])%list.
Proof.
  intros Hlist Hrun Hn Hmetric Hsns.
  apply Nat.ltb_lt in Hn.
  assert (Hproc : processResults env results w1
                  = (Throw e,
                     mkWorld (console w1 ++ [ConsoleError "Error sending alert:" e])%list
                       (clock w1) (S (ticks w1)) (ENVIRONMENT w1) (SNS_TOPIC_ARN w1)
                       (sent w1
                        ++ [CloudWatchPutMetricData
                              (failures_metric (failures results) (ENVIRONMENT w1));
                            SnsPublish
                              (failures_alert (failures results) results
                                 (SNS_TOPIC_ARN w1) (clock w1 (ticks w1)))])%list)).
  { unfold processResults, sendAlert, send, getenv, now, failures_metric, failures_alert,
      alert_payload in *.
    run_block. rewrite Hmetric, Hn. simpl. rewrite Hsns. simpl.
    rewrite <- app_assoc. reflexivity. }
  remember (handler env w) as outcome eqn:Hh.
  unfold handler, getTaggedResources in Hh.
  unfold bind at 1 in Hh. unfold console_log at 1 in Hh. cbv iota beta in Hh.
  unfold try_catch at 1 in Hh. unfold bind at 1 in Hh.
  unfold try_catch at 1 in Hh. unfold lift at 1 in Hh.
  rewrite Hlist in Hh. unfold started, console_log in Hrun. simpl in Hrun.
  unfold bind at 1 in Hh. rewrite Hrun in Hh. unfold bind at 1 in Hh.
  rewrite Hproc in Hh.
  unfold sendAlert, send, getenv, now, error_alert, alert_payload in *.
  unfold try_catch, bind, lift, console_error in Hh. simpl in Hh.
  match type of Hh with
  | context [sns_publish env ?i] => destruct (sns_publish env i)
  end; subst outcome; simpl;
    (split; [eexists; reflexivity | rewrite <- ?app_assoc; reflexivity]).
Qed.

Lemma refused_alert_is_followed_by_error_alert_witness :
  exists w1 results,
    runSecurityChecks silent_scenario_account
      (mkResources [] [] [] [JStr "cloudsecdemo-cluster"]) (started fresh_world)
    = (Ok results, w1)
    /\ List.length (sent (snd (handler silent_scenario_account fresh_world))) = 3%nat.
Proof.
  destruct (runSecurityChecks silent_scenario_account
              (mkResources [] [] [] [JStr "cloudsecdemo-cluster"]) (started fresh_world))
    as [[results|e] w1] eqn:E; [|discriminate E].
  exists w1, results. split; [reflexivity|].
  assert (Hs : sent w1 = []) by (vm_compute in E; injection E as _ <-; reflexivity).
  assert (Hf : failures results = 3%nat) by (vm_compute in E; injection E as <- _; reflexivity).
  assert (Hn : (0 < failures results)%nat) by (rewrite Hf; lia).
  destruct (refused_alert_is_followed_by_error_alert silent_scenario_account fresh_world
              w1 _ results
              (ServiceError "AuthorizationError" "Not authorized to publish")
              eq_refl E Hn eq_refl eq_refl) as [_ Hsent].
  rewrite Hsent, Hs. reflexivity.
Defined.
